(** * Historical court: a shallow embedding of [agent.py]

    The script wires five model-backed agents into a fixed pipeline with the
    composition agents of an agent framework, and defines two tools:
    [append_to_state], which extends a list kept in the session state, and
    [write_file], which writes a report below a directory that it creates
    first.

    The embedding has three layers.
    - Python values, the session state (a dictionary) and the tools, written
      in a small state-and-exception monad over a [World] holding the session
      state, the file system and the log.
    - The parts of the Python library that [write_file] calls
      ([os.path.join], [os.path.dirname], [os.makedirs], [open]), over a
      file system of directories and regular files on a host with its
      encodings and limits.
    - The agent tree of the script as data, and the loop of the composition
      agent that repeats the investigation. *)

From Stdlib Require Import List ZArith Ascii String Lia Bool.
From stdpp Require Import base option list gmap strings fin_maps.
Import ListNotations.

Local Open Scope string_scope.
Local Open Scope list_scope.

Set Warnings "-register-all".

(** ** Python values *)

(** The values a session state can hold are the JSON-like ones (a float
    behaves like an integer in what follows and is left out).  A list is an
    ordered sequence with repetitions. *)
Inductive pyval : Type :=
| PNone
| PBool (b : bool)
| PInt (z : Z)
| PStr (s : string)
| PList (l : list pyval)
| PDict (d : list (string * pyval)).

(** The exceptions that the modelled code can raise.  [OSError] is the
    class itself, raised for an error of the system that has no class of
    its own (here a name or a path that is too long); the five classes
    after it are its subclasses.  [UnicodeEncodeError] is a subclass of
    [ValueError]. *)
Inductive exn : Type :=
| TypeError
| ValueError
| UnicodeEncodeError
| OSError
| FileNotFoundError
| FileExistsError
| NotADirectoryError
| IsADirectoryError
| PermissionError
| RecursionError.

Definition exn_eqb (a b : exn) : bool :=
  match a, b with
  | TypeError, TypeError | ValueError, ValueError
  | UnicodeEncodeError, UnicodeEncodeError | OSError, OSError
  | FileNotFoundError, FileNotFoundError | FileExistsError, FileExistsError
  | NotADirectoryError, NotADirectoryError
  | IsADirectoryError, IsADirectoryError
  | PermissionError, PermissionError | RecursionError, RecursionError => true
  | _, _ => false
  end.

(** [OSError] and its subclasses: what [except OSError] catches. *)
Definition is_OSError (e : exn) : bool :=
  match e with
  | OSError | FileNotFoundError | FileExistsError | NotADirectoryError
  | IsADirectoryError | PermissionError => true
  | TypeError | ValueError | UnicodeEncodeError | RecursionError => false
  end.

(** [ValueError] and its subclass: what [except ValueError] catches. *)
Definition is_ValueError (e : exn) : bool :=
  match e with
  | ValueError | UnicodeEncodeError => true
  | TypeError | OSError | FileNotFoundError | FileExistsError | NotADirectoryError
  | IsADirectoryError | PermissionError | RecursionError => false
  end.

(** [a + b] where [b] is a list: only a list on the left has an [__add__]
    that accepts a list, and it builds a new list.  Every other JSON-like
    value raises [TypeError]. *)
Definition py_add_list (a : pyval) (b : list pyval) : exn + pyval :=
  match a with
  | PList l => inr (PList (l ++ b))
  | PNone | PBool _ | PInt _ | PStr _ | PDict _ => inl TypeError
  end.

(** ** The file system and the host *)

(** A POSIX file system, as far as [write_file] can tell.  A node is a
    directory or a regular file; the flag is the write permission of the
    calling process on it.  There are no symbolic links, every directory can
    be searched, and the devices have room. *)
Inductive node : Type :=
| Dir (writable : bool)
| File (writable : bool) (content : string).

(** Nodes are stored under their absolute path, as the list of component
    names from the root; the root is the empty list. *)
Record FS : Type := mkFS {
  nodes : gmap (list string) node;
  cwd : list string
}.

(** What the arguments of a call meet on the machine, beyond the files.
    - The file system encoding ([sys.getfilesystemencoding()]), by which
      the library turns a path into bytes: the characters it has, and the
      number of bytes of each.
    - The encoding of text files ([locale.getencoding()]), which
      [open(path, "w")] uses for what is written: the characters it has.
    - The limits of the system on the bytes of a name and of a path
      ([NAME_MAX] and [PATH_MAX] of [limits.h], the latter with the final
      NUL of the path).
    - The number of calls that [os.makedirs] can nest below its first one
      before the interpreter reaches its recursion limit. *)
Record Host : Type := mkHost {
  fs_char : ascii → bool;
  fs_width : ascii → nat;
  text_char : ascii → bool;
  NAME_MAX : nat;
  PATH_MAX : nat;
  recursion_room : nat
}.

(** A Linux host with a UTF-8 locale: every character has an encoding, of
    one byte below 128 and of two bytes from there on. *)
Definition utf8_width (a : ascii) : nat :=
  if Nat.ltb (nat_of_ascii a) 128 then 1%nat else 2%nat.

Definition linux : Host :=
  mkHost (λ _, true) utf8_width (λ _, true) 255 4096 900.



(** ** The world of a tool call *)

Record World : Type := mkWorld {
  state : gmap string pyval;   (* tool_context.state *)
  fs : FS;                     (* the files of the host *)
  log : list string            (* lines sent to logging.info *)
}.

Definition set_state (w : World) (s : gmap string pyval) : World :=
  mkWorld s (fs w) (log w).
Definition set_fs (w : World) (f : FS) : World :=
  mkWorld (state w) f (log w).

(** ** State and exception monad

    A raised exception keeps the effects performed before it. *)
Inductive Outcome (A : Type) : Type :=
| Ret (a : A)
| Raise (e : exn).
Arguments Ret {A} a.
Arguments Raise {A} e.

Definition Py (A : Type) : Type := World → Outcome A * World.

Definition ret {A} (a : A) : Py A := λ w, (Ret a, w).
Definition raise {A} (e : exn) : Py A := λ w, (Raise e, w).
Definition bind {A B} (m : Py A) (k : A → Py B) : Py B :=
  λ w, match m w with
       | (Ret a, w') => k a w'
       | (Raise e, w') => (Raise e, w')
       end.
(** [try: m  except <handles>: h]. *)
Definition try_except {A} (m : Py A) (handles : exn → bool) (h : exn → Py A) : Py A :=
  λ w, match m w with
       | (Ret a, w') => (Ret a, w')
       | (Raise e, w') => if handles e then h e w' else (Raise e, w')
       end.
Definition lift_result {A} (r : exn + A) : Py A :=
  match r with inl e => raise e | inr a => ret a end.

#[global] Instance py_ret : MRet Py := @ret.
#[global] Instance py_bind : MBind Py := λ A B k m, bind m k.

Definition get_state : Py (gmap string pyval) := λ w, (Ret (state w), w).
Definition put_state (s : gmap string pyval) : Py unit := λ w, (Ret tt, set_state w s).
Definition logging_info (line : string) : Py unit :=
  λ w, (Ret tt, mkWorld (state w) (fs w) (log w ++ [line])).

(** ** [append_to_state] *)

(** The value every tool returns: [{"status": "success"}]. *)
Definition success : list (string * string) := [("status", "success")].

(** [tool_context.state.get(field, dflt)]: the value bound to the key, or
    [dflt] when the key is unbound. *)
Definition state_get (field : string) (dflt : pyval) : Py pyval :=
  s ← get_state; ret (default dflt (s !! field)).

(** [tool_context.state[field] = v] *)
Definition state_set (field : string) (v : pyval) : Py unit :=
  s ← get_state; put_state (<[field := v]> s).

(** [[
def append_to_state(tool_context, field, response):
    existing_state = tool_context.state.get(field, [])
    tool_context.state[field] = existing_state + [response]
    logging.info(f"[Added to {field}] {response}")
    return {"status": "success"}
]]
    The default [[]] is a fresh list at every call and [+] builds a new
    list, so no list object is shared between keys or calls. *)
Definition append_to_state (field response : string) : Py (list (string * string)) :=
  existing_state ← state_get field (PList []);
  v ← lift_result (py_add_list existing_state [PStr response]);
  state_set field v ;;
  logging_info ("[Added to " +:+ field +:+ "] " +:+ response) ;;
  ret success.

(** ** Path names: [posixpath]

    [os.path] on a POSIX host, after [Lib/posixpath.py] of CPython.  A
    Python [str] is modelled by [string] and its characters by [ascii]: the
    separator, the dot and NUL are themselves, and what the others are is
    left to the encodings of the host.  The path functions only look at the
    separator. *)

Definition is_sep (c : ascii) : bool := Ascii.eqb c "/".

Fixpoint has_char (a : ascii) (s : string) : bool :=
  match s with
  | EmptyString => false
  | String c s' => Ascii.eqb c a || has_char a s'
  end.

Definition has_sep (s : string) : bool := has_char "/" s.
Definition has_nul (s : string) : bool := has_char "000" s.

(** [s.startswith("/")] and [s.endswith("/")] *)
Definition starts_with_sep (s : string) : bool :=
  match s with
  | EmptyString => false
  | String c _ => is_sep c
  end.

Fixpoint ends_with_sep (s : string) : bool :=
  match s with
  | EmptyString => false
  | String c EmptyString => is_sep c
  | String _ s' => ends_with_sep s'
  end.

(** [s == "/" * len(s)] *)
Fixpoint all_sep (s : string) : bool :=
  match s with
  | EmptyString => true
  | String c s' => is_sep c && all_sep s'
  end.

(** [s.rstrip("/")] *)
Fixpoint rstrip_sep (s : string) : string :=
  match s with
  | EmptyString => EmptyString
  | String c s' => if all_sep s then EmptyString else String c (rstrip_sep s')
  end.

(** [(p[:i], p[i:])] for [i = p.rfind("/") + 1]. *)
Fixpoint cut_last_sep (p : string) : string * string :=
  match p with
  | EmptyString => (EmptyString, EmptyString)
  | String c p' =>
      if has_sep p'
      then let r := cut_last_sep p' in (String c (fst r), snd r)
      else if is_sep c then (String c EmptyString, p')
      else (EmptyString, p)
  end.

(** [[
def join(a, b):
    if b.startswith(sep) or not a:  path = b
    elif a.endswith(sep):           path = a + b
    else:                           path = a + sep + b
]] *)
Definition path_join (a b : string) : string :=
  if starts_with_sep b || String.eqb a "" then b
  else if ends_with_sep a then a +:+ b
  else a +:+ "/" +:+ b.

(** [[
def split(p):
    i = p.rfind(sep) + 1
    head, tail = p[:i], p[i:]
    if head and head != sep*len(head):
        head = head.rstrip(sep)
    return head, tail
]] *)
Definition path_split (p : string) : string * string :=
  let (head, tail) := cut_last_sep p in
  (if negb (String.eqb head "") && negb (all_sep head) then rstrip_sep head else head,
   tail).

(** [os.path.dirname] has the body of [split] and returns [head]. *)
Definition dirname (p : string) : string := fst (path_split p).

(** ** Path resolution and the system calls *)

(** The names between the separators of a path. *)
Fixpoint path_components (p : string) : list string :=
  match p with
  | EmptyString => [EmptyString]
  | String c p' =>
      if is_sep c then EmptyString :: path_components p'
      else match path_components p' with
           | x :: xs => String c x :: xs
           | [] => [String c EmptyString]
           end
  end.

Definition is_dot (c : string) : bool := String.eqb c "." || String.eqb c "..".

(** One step of a lookup: an empty name and [.] stay, [..] goes to the
    parent (the root is its own parent), a name goes to the child. *)
Definition walk_step (cur : list string) (c : string) : list string :=
  if String.eqb c "" || String.eqb c "." then cur
  else if String.eqb c ".." then removelast cur
  else cur ++ [c].

(** Whether an encoding has every character of a string. *)
Fixpoint all_chars (ok : ascii → bool) (s : string) : bool :=
  match s with
  | EmptyString => true
  | String c s' => ok c && all_chars ok s'
  end.

Section Host.

(** The host the script runs on. *)
Variable host : Host.

Definition fs_encodable (s : string) : bool := all_chars (fs_char host) s.
Definition text_encodable (s : string) : bool := all_chars (text_char host) s.

(** The bytes of a string in the file system encoding. *)
Fixpoint byte_length (s : string) : nat :=
  match s with
  | EmptyString => 0
  | String c s' => fs_width host c + byte_length s'
  end.

(** The system takes a path of less than [PATH_MAX] bytes, and a directory
    is asked for a name of at most [NAME_MAX] bytes; the empty name, [.]
    and [..] are not looked up in a directory. *)
Definition path_too_long (p : string) : bool :=
  Nat.leb (PATH_MAX host) (byte_length p).

Definition name_too_long (c : string) : bool :=
  negb (String.eqb c "" || is_dot c) && Nat.ltb (NAME_MAX host) (byte_length c).

(** Follow the components from [cur].  Every node a step starts from must be
    a directory, and it is asked for the name of the step; the node reached
    last is not looked at. *)
Fixpoint walk (m : gmap (list string) node) (cur : list string) (cs : list string)
  : exn + list string :=
  match cs with
  | [] => inr cur
  | c :: cs' =>
      match m !! cur with
      | Some (Dir _) =>
          if name_too_long c then inl OSError
          else walk m (walk_step cur c) cs'
      | Some (File _ _) => inl NotADirectoryError
      | None => inl FileNotFoundError
      end
  end.

(** A relative path starts at the working directory. *)
Definition start_dir (f : FS) (p : string) : list string :=
  if starts_with_sep p then [] else cwd f.

(** [stat]: the node a path names. *)
Definition sys_stat (f : FS) (p : string) : exn + node :=
  if String.eqb p "" then inl FileNotFoundError
  else if path_too_long p then inl OSError
  else match walk (nodes f) (start_dir f p) (path_components p) with
       | inl e => inl e
       | inr k => match nodes f !! k with
                  | Some n => inr n
                  | None => inl FileNotFoundError
                  end
       end.

(** Trailing separators do not count for the last name of a path. *)
Fixpoint strip_trailing_empty (cs : list string) : list string :=
  match cs with
  | [] => []
  | c :: cs' =>
      match strip_trailing_empty cs' with
      | [] => if String.eqb c "" then [] else [c]
      | r => c :: r
      end
  end.

(** Follow the components to a directory: its key and its write
    permission. *)
Definition walk_dir (m : gmap (list string) node) (cur : list string)
  (cs : list string) : exn + (list string * bool) :=
  match walk m cur cs with
  | inl e => inl e
  | inr k => match m !! k with
             | Some (Dir wr) => inr (k, wr)
             | Some (File _ _) => inl NotADirectoryError
             | None => inl FileNotFoundError
             end
  end.

(** The directory that holds the last name of a path. *)
Definition walk_parent (f : FS) (p : string) (cs : list string)
  : exn + (list string * bool) :=
  walk_dir (nodes f) (start_dir f p) (removelast cs).

Definition with_nodes (f : FS) (m : gmap (list string) node) : FS := mkFS m (cwd f).

(** [mkdir]: a name that is too long is refused when the directory is asked
    for it, an existing name is reported before a missing permission; the
    new directory is writable. *)
Definition sys_mkdir (f : FS) (p : string) : exn + FS :=
  if String.eqb p "" then inl FileNotFoundError
  else if path_too_long p then inl OSError
  else
    let cs := strip_trailing_empty (path_components p) in
    match cs with
    | [] => inl FileExistsError
    | _ :: _ =>
        match walk_parent f p cs with
        | inl e => inl e
        | inr (k, wr) =>
            let name := List.last cs "" in
            if is_dot name then inl FileExistsError
            else if name_too_long name then inl OSError
            else match nodes f !! (k ++ [name]) with
                 | Some _ => inl FileExistsError
                 | None => if wr
                           then inr (with_nodes f (<[k ++ [name] := Dir true]> (nodes f)))
                           else inl PermissionError
                 end
        end
    end.

(** [open(p, O_WRONLY | O_CREAT | O_TRUNC)]: the file is created when it is
    missing, emptied when it is there; the result is the key of the file. *)
Definition sys_open_trunc (f : FS) (p : string) : exn + (FS * list string) :=
  if String.eqb p "" then inl FileNotFoundError
  else if path_too_long p then inl OSError
  else
    let cs := strip_trailing_empty (path_components p) in
    match cs with
    | [] => inl IsADirectoryError
    | _ :: _ =>
        match walk_parent f p cs with
        | inl e => inl e
        | inr (k, wr) =>
            let name := List.last cs "" in
            if ends_with_sep p || is_dot name then inl IsADirectoryError
            else if name_too_long name then inl OSError
            else match nodes f !! (k ++ [name]) with
                 | Some (Dir _) => inl IsADirectoryError
                 | Some (File wf _) =>
                     if wf
                     then inr (with_nodes f (<[k ++ [name] := File wf ""]> (nodes f)),
                               k ++ [name])
                     else inl PermissionError
                 | None =>
                     if wr
                     then inr (with_nodes f (<[k ++ [name] := File true ""]> (nodes f)),
                               k ++ [name])
                     else inl PermissionError
                 end
        end
    end.

(** [write] on an open file puts the text after what the file holds. *)
Definition sys_write (f : FS) (h : list string) (text : string) : exn + FS :=
  match nodes f !! h with
  | Some (File wf old) => inr (with_nodes f (<[h := File wf (old +:+ text)]> (nodes f)))
  | Some (Dir _) | None => inl ValueError
  end.

(** ** The [os] functions of Python

    After [Lib/os.py] and [Lib/genericpath.py] of CPython. *)

Definition get_fs : Py FS := λ w, (Ret (fs w), w).
Definition put_fs (f : FS) : Py unit := λ w, (Ret tt, set_fs w f).

(** A path argument is turned into bytes before any system call is made:
    a character that the file system encoding lacks is refused with
    [UnicodeEncodeError], and then a NUL character with [ValueError]. *)
Definition path_error (p : string) : option exn :=
  if negb (fs_encodable p) then Some UnicodeEncodeError
  else if has_nul p then Some ValueError
  else None.

Definition os_stat (p : string) : Py node :=
  match path_error p with
  | Some e => raise e
  | None => f ← get_fs; lift_result (sys_stat f p)
  end.

Definition os_mkdir (p : string) : Py unit :=
  match path_error p with
  | Some e => raise e
  | None => f ← get_fs; f' ← lift_result (sys_mkdir f p); put_fs f'
  end.

Definition catches_stat (e : exn) : bool :=
  is_OSError e || is_ValueError e.

(** [[
def exists(path):
    try:                            os.stat(path)
    except (OSError, ValueError):   return False
    return True
]] *)
Definition os_path_exists (p : string) : Py bool :=
  try_except (os_stat p ;; mret true) catches_stat (λ _, mret false).

Definition node_is_dir (n : node) : bool :=
  match n with Dir _ => true | File _ _ => false end.

(** [[
def isdir(s):
    try:                            st = os.stat(s)
    except (OSError, ValueError):   return False
    return stat.S_ISDIR(st.st_mode)
]] *)
Definition os_path_isdir (p : string) : Py bool :=
  try_except (n ← os_stat p; mret (node_is_dir n)) catches_stat (λ _, mret false).

(** [[
def makedirs(name, mode=0o777, exist_ok=False):
    head, tail = path.split(name)
    if not tail:
        head, tail = path.split(head)
    if head and tail and not path.exists(head):
        try:
            makedirs(head, exist_ok=exist_ok)
        except FileExistsError:
            pass
        if tail == curdir:
            return
    try:
        mkdir(name, mode)
    except OSError:
        if not exist_ok or not path.isdir(name):
            raise
]]
    with [exist_ok=True], as [write_file] calls it; [makedirs] is the
    function itself, for the recursive call. *)
Definition makedirs_body (makedirs : string → Py unit) (name : string) : Py unit :=
  let ht := path_split name in
  let ht := if String.eqb (snd ht) "" then path_split (fst ht) else ht in
  let head := fst ht in
  let tail := snd ht in
  done ←
    (if negb (String.eqb head "") && negb (String.eqb tail "")
     then
       ex ← os_path_exists head;
       if negb ex
       then
         try_except (makedirs head)
                    (λ e, exn_eqb e FileExistsError) (λ _, mret tt) ;;
         mret (String.eqb tail ".")
       else mret false
     else mret false);
  if (done : bool) then mret tt
  else
    try_except (os_mkdir name) is_OSError
      (λ e, isd ← os_path_isdir name;
            if negb isd then raise e else mret tt).

(** The recursion under the recursion limit of the interpreter: [fuel] is
    the number of calls that can still be nested, and a call for which
    none is left raises [RecursionError]. *)
Fixpoint makedirs_rec (fuel : nat) (name : string) : Py unit :=
  match fuel with
  | O => raise RecursionError
  | S fuel' => makedirs_body (makedirs_rec fuel') name
  end.

(** The call in [write_file]: it runs, and can nest as many calls as the
    host has room for. *)
Definition os_makedirs (name : string) : Py unit :=
  makedirs_rec (S (recursion_room host)) name.

(** [open(p, "w")]: the handle is the key of the file. *)
Definition open_w (p : string) : Py (list string) :=
  match path_error p with
  | Some e => raise e
  | None =>
      f ← get_fs;
      r ← lift_result (sys_open_trunc f p);
      put_fs (fst r) ;;
      mret (snd r)
  end.

(** [f.write(text)], the text reaching the file when the [with] block
    closes it.  The text is encoded first, as a whole: a character that the
    encoding of text files lacks raises [UnicodeEncodeError] and nothing is
    written (the file stays as [open] left it).  On POSIX the text layer
    does not change line ends. *)
Definition file_write (h : list string) (text : string) : Py unit :=
  if negb (text_encodable text) then raise UnicodeEncodeError
  else f ← get_fs; f' ← lift_result (sys_write f h text); put_fs f'.

(** ** [write_file] *)

(** [[
def write_file(tool_context, directory, filename, content):
    target_path = os.path.join(directory, filename)
    os.makedirs(os.path.dirname(target_path), exist_ok=True)
    with open(target_path, "w") as f:
        f.write(content)
    logging.info(f"File written to {target_path}")
    return {"status": "success"}
]] *)
Definition write_file (directory filename content : string)
  : Py (list (string * string)) :=
  let target_path := path_join directory filename in
  os_makedirs (dirname target_path) ;;
  f ← open_w target_path;
  file_write f content ;;
  logging_info ("File written to " +:+ target_path) ;;
  mret success.



(** ** The agents *)

(** The tools handed to the agents: the Wikipedia lookup, the two tools of
    the script and the framework's [exit_loop]. *)
Inductive tool : Type :=
| WikipediaQueryRun
| tool_append_to_state
| tool_write_file
| tool_exit_loop.

Definition tool_eqb (a b : tool) : bool :=
  match a, b with
  | WikipediaQueryRun, WikipediaQueryRun
  | tool_append_to_state, tool_append_to_state
  | tool_write_file, tool_write_file
  | tool_exit_loop, tool_exit_loop => true
  | _, _ => false
  end.

(** [types.HttpRetryOptions(initial_delay=..., attempts=...)] *)
Record HttpRetryOptions : Type := mkRetry {
  initial_delay : Z;
  attempts : Z
}.

(** [Gemini(model=..., retry_options=...)] *)
Record Gemini : Type := mkGemini {
  model : option string;
  retry_options : HttpRetryOptions
}.

(** An agent is a model-backed [Agent] or one of the three composition
    agents.  The descriptions and instructions are prompts for the model
    and are left out, and so is the sampling temperature of the greeter. *)
Inductive agent : Type :=
| Agent (name : string) (gemini : Gemini) (tools : list tool) (sub_agents : list agent)
| SequentialAgent (name : string) (sub_agents : list agent)
| ParallelAgent (name : string) (sub_agents : list agent)
| LoopAgent (name : string) (sub_agents : list agent) (max_iterations : nat).

Definition agent_name (a : agent) : string :=
  match a with
  | Agent n _ _ _ | SequentialAgent n _ | ParallelAgent n _ | LoopAgent n _ _ => n
  end.

Definition agent_tools (a : agent) : list tool :=
  match a with
  | Agent _ _ t _ => t
  | SequentialAgent _ _ | ParallelAgent _ _ | LoopAgent _ _ _ => []
  end.

(** The model of a model-backed agent. *)
Definition agent_model (a : agent) : option Gemini :=
  match a with
  | Agent _ g _ _ => Some g
  | SequentialAgent _ _ | ParallelAgent _ _ | LoopAgent _ _ _ => None
  end.

(** An agent and all the agents below it, parents first. *)
Fixpoint agent_tree (a : agent) : list agent :=
  let over :=
    fix over (l : list agent) : list agent :=
      match l with
      | [] => []
      | b :: l' => agent_tree b ++ over l'
      end in
  a :: match a with
       | Agent _ _ _ s | SequentialAgent _ s | ParallelAgent _ s
       | LoopAgent _ s _ => over s
       end.

(** The agents of the tree that call a model. *)
Definition is_model_backed (a : agent) : bool :=
  match agent_model a with Some _ => true | None => false end.

Definition model_backed (a : agent) : list agent :=
  List.filter is_model_backed (agent_tree a).

(** Whether an agent, or an agent below it, holds a tool. *)
Definition holds_tool (t : tool) (a : agent) : bool :=
  existsb (λ b, existsb (tool_eqb t) (agent_tools b)) (agent_tree a).

Section Script.

(** [model_name = os.getenv("MODEL")], unset or a string. *)
Variable model_name : option string.

Definition RETRY_OPTIONS : HttpRetryOptions :=
  {| initial_delay := 1; attempts := 6 |}.

Definition admirer : agent :=
  Agent "admirer" (mkGemini model_name RETRY_OPTIONS)
        [WikipediaQueryRun; tool_append_to_state] [].

Definition critic_researcher : agent :=
  Agent "critic_researcher" (mkGemini model_name RETRY_OPTIONS)
        [WikipediaQueryRun; tool_append_to_state] [].

Definition investigation_team : agent :=
  ParallelAgent "investigation_team" [admirer; critic_researcher].

Definition judge : agent :=
  Agent "judge" (mkGemini model_name RETRY_OPTIONS)
        [tool_append_to_state; tool_exit_loop] [].

Definition trial_loop : agent :=
  LoopAgent "trial_loop" [investigation_team; judge] 3.

Definition verdict_writer : agent :=
  Agent "verdict_writer" (mkGemini model_name RETRY_OPTIONS) [tool_write_file] [].

Definition historical_court_system : agent :=
  SequentialAgent "historical_court_system" [trial_loop; verdict_writer].

Definition root_agent : agent :=
  Agent "judge_greeter" (mkGemini model_name RETRY_OPTIONS)
        [tool_append_to_state] [historical_court_system].

End Script.

(** ** The trial loop *)

(** The states of the loop. *)
Inductive loop_state : Type :=
| Iterating
| TerminatedBySignal
| TerminatedByCap.

(** A configuration of a running loop: its state and the number of passes
    over the sub-agents started so far. *)
Record loop_config : Type := mkLoop {
  phase : loop_state;
  passes : nat
}.

(** What the models decide is not code: [calls_exit i n] tells whether the
    agent named [n] calls [exit_loop] in pass [i], and is arbitrary.  Only
    an agent that holds the tool can call it. *)
Definition body_signals (calls_exit : nat → string → bool) (i : nat)
  (subs : list agent) : bool :=
  existsb (λ a, holds_tool tool_exit_loop a && calls_exit i (agent_name a)) subs.

(** Modelled from the spec: the loop that the framework's [LoopAgent] runs
    (the class is imported from [google.adk]; its code is not in the
    script).  The loop "repeats {investigation, judge} up to a fixed
    iteration cap; terminates early on judge's exit signal", with "states =
    {iterating, terminated-by-signal, terminated-by-cap}; no other
    transitions".  One step runs one pass over the sub-agents. *)
Definition loop_step (subs : list agent) (cap : nat)
  (calls_exit : nat → string → bool) (c : loop_config) : option loop_config :=
  match phase c with
  | Iterating =>
      let n := passes c in
      if body_signals calls_exit n subs then Some (mkLoop TerminatedBySignal (S n))
      else if Nat.ltb (S n) cap then Some (mkLoop Iterating (S n))
      else Some (mkLoop TerminatedByCap (S n))
  | TerminatedBySignal | TerminatedByCap => None
  end.

Definition loop_init : loop_config := mkLoop Iterating 0.

(** The step of a loop agent, from its own fields. *)
Definition agent_loop_step (a : agent) (calls_exit : nat → string → bool)
  (c : loop_config) : option loop_config :=
  match a with
  | LoopAgent _ subs cap => loop_step subs cap calls_exit c
  | Agent _ _ _ _ | SequentialAgent _ _ | ParallelAgent _ _ => None
  end.

(** Run a loop agent for at most [fuel] steps. *)
Fixpoint loop_run (a : agent) (calls_exit : nat → string → bool) (fuel : nat)
  (c : loop_config) : loop_config :=
  match fuel with
  | O => c
  | S fuel' =>
      match agent_loop_step a calls_exit c with
      | Some c' => loop_run a calls_exit fuel' c'
      | None => c
      end
  end.

(** The configurations a loop agent can be in. *)
Inductive loop_reachable (a : agent) (calls_exit : nat → string → bool)
  : loop_config → Prop :=
| reach_init : loop_reachable a calls_exit loop_init
| reach_step c c' :
    loop_reachable a calls_exit c →
    agent_loop_step a calls_exit c = Some c' →
    loop_reachable a calls_exit c'.

(** ** The session *)

(** The steps of a session that touch the world are the tool calls; the
    model chooses their arguments. *)
Inductive tool_call : Type :=
| CallAppend (field response : string)
| CallWrite (directory filename content : string).

Definition run_call (c : tool_call) (w : World) : World :=
  match c with
  | CallAppend f r => snd (append_to_state f r w)
  | CallWrite d fn t => snd (write_file d fn t w)
  end.

Inductive session_step (w : World) : World → Prop :=
| step_call c : session_step w (run_call c w).

(** The greeter is told to "use the 'append_to_state' tool to store the
    user's response in the 'PROMPT' state key". *)
Definition greeter_store (response : string) : tool_call :=
  CallAppend "PROMPT" response.

(** A session starts with an empty state. *)
Definition new_session (f : FS) : World := mkWorld ∅ f [].

Definition is_str (v : pyval) : bool :=
  match v with PStr _ => true | _ => false end.

Definition is_str_list (v : pyval) : bool :=
  match v with PList l => forallb is_str l | _ => false end.

(** A key holds a value of some kind when it is unset or bound to such a
    value. *)
Definition holds (kind : pyval → bool) (s : gmap string pyval) (k : string) : bool :=
  match s !! k with Some v => kind v | None => true end.

(** The typing of the keys in the words of the specification: [PROMPT] a
    string, [pos_data] and [neg_data] sequences of strings. *)
Definition spec_typing (s : gmap string pyval) : Prop :=
  holds is_str s "PROMPT" = true ∧
  holds is_str_list s "pos_data" = true ∧
  holds is_str_list s "neg_data" = true.

(** The typing that the tool keeps: the three keys hold sequences of
    strings. *)
Definition seq_typing (s : gmap string pyval) : Prop :=
  holds is_str_list s "PROMPT" = true ∧
  holds is_str_list s "pos_data" = true ∧
  holds is_str_list s "neg_data" = true.

(** A step is append-only when every sequence of the state is a prefix of
    the sequence the key holds afterwards. *)
Definition append_only (s s' : gmap string pyval) : Prop :=
  ∀ k l, s !! k = Some (PList l) → ∃ l', s' !! k = Some (PList (l ++ l')).

(** ** Notions used in the statements *)

(** A computation that leaves the session state and the log alone. *)
Definition fs_only {A} (m : Py A) : Prop :=
  ∀ w, state (snd (m w)) = state w ∧ log (snd (m w)) = log w.

(** A step of [write_file] raises: the creation of the directories, the
    opening of the file or the write. *)
Definition step_raises (d fn c : string) (w : World) (e : exn) (w' : World) : Prop :=
  os_makedirs (dirname (path_join d fn)) w = (Raise e, w') ∨
  ∃ w1, os_makedirs (dirname (path_join d fn)) w = (Ret tt, w1) ∧
        (open_w (path_join d fn) w1 = (Raise e, w') ∨
         ∃ h w2, open_w (path_join d fn) w1 = (Ret h, w2) ∧
                 file_write h c w2 = (Raise e, w')).

(** What holds of every configuration the trial loop reaches. *)
Definition trial_loop_inv (calls_exit : nat → string → bool) (c : loop_config) : Prop :=
  match phase c with
  | Iterating =>
      (passes c < 3)%nat ∧ ∀ i, (i < passes c)%nat → calls_exit i "judge" = false
  | TerminatedBySignal =>
      (1 ≤ passes c ≤ 3)%nat ∧ calls_exit (passes c - 1) "judge" = true ∧
      ∀ i, (i < passes c - 1)%nat → calls_exit i "judge" = false
  | TerminatedByCap =>
      passes c = 3%nat ∧ ∀ i, (i < 3)%nat → calls_exit i "judge" = false
  end.

(** [os.path.exists] and [os.path.isdir], as tests on the file system. *)
Definition path_exists (f : FS) (p : string) : bool :=
  match path_error p with
  | Some _ => false
  | None => match sys_stat f p with inr _ => true | inl _ => false end
  end.

Definition path_isdir (f : FS) (p : string) : bool :=
  match path_error p with
  | Some _ => false
  | None => match sys_stat f p with inr n => node_is_dir n | inl _ => false end
  end.

(** A run of separators. *)
Fixpoint seps (j : nat) : string :=
  match j with
  | O => ""
  | S j' => String "/" (seps j')
  end.

(** ** What [write_file] is to leave *)

(** The names of a path: its components but the empty ones, which stand for
    leading, repeated and trailing separators. *)
Definition nonempty (c : string) : bool := negb (String.eqb c "").

Definition names (p : string) : list string :=
  List.filter nonempty (path_components p).


(** The last name of a path, the name of the file for a target path, and
    the names before it. *)
Definition last_name (p : string) : string := List.last (names p) "".
Definition dir_names (p : string) : list string := removelast (names p).




(** What a caller of [os.makedirs] can see raised, with [n] calls that can
    be nested: an [OSError]; [ValueError] for a NUL character;
    [UnicodeEncodeError] for a character without encoding;
    [RecursionError] for more names than calls. *)
Definition makedirs_error (n : nat) (name : string) (e : exn) : Prop :=
  is_OSError e = true ∨
  (e = ValueError ∧ has_nul name = true) ∨
  (e = UnicodeEncodeError ∧ fs_encodable name = false) ∨
  (e = RecursionError ∧ (n ≤ length (names name))%nat).


(** ** Example worlds *)

(** A session in which the greeter has stored the topic. *)
Definition prompt_world : World :=
  mkWorld {[ "PROMPT" := PList [PStr "Napoleon"] ]} (mkFS ∅ []) [].

(** A host with a home directory, the working directory, writable or not. *)
Definition home_fs (home_writable : bool) : FS :=
  mkFS (<[ ["home"] := Dir home_writable ]> {[ [] := Dir true ]}) ["home"].





(** ** Sequences of calls and what calls depend on *)

(** An agent that calls [append_to_state] on one field for each response of
    a list, in order; a call that raises ends the sequence. *)
Fixpoint append_all (field : string) (responses : list string) : Py unit :=
  match responses with
  | [] => mret tt
  | r :: rs => append_to_state field r ;; append_all field rs
  end.

(** Every key of the state holds a non-empty sequence of strings. *)
Definition all_str_lists (s : gmap string pyval) : Prop :=
  ∀ k v, s !! k = Some v → ∃ l : list string, v = PList (PStr <$> l) ∧ l ≠ [].



(** A computation whose outcome and whose effect on the files depend on the
    files only. *)
Definition fs_determined {A} (c : Py A) : Prop :=
  ∀ w1 w2, fs w1 = fs w2 →
           fst (c w1) = fst (c w2) ∧ fs (snd (c w1)) = fs (snd (c w2)).

(** * Properties *)

Local Open Scope nat_scope.

(** Unfold the monad down to functions on worlds. *)
Ltac py_unfold :=
  unfold mbind, py_bind, mret, py_ret, bind, ret, raise, try_except,
    lift_result, get_state, put_state, get_fs, put_fs, logging_info,
    set_state, set_fs in *.

(** ** [append_to_state] *)

(** The call on a world, by the value the field holds. *)
Lemma append_to_state_run (w : World) (f r : string) :
  append_to_state f r w =
    match py_add_list (default (PList []) (state w !! f)) [PStr r] with
    | inr v =>
        (Ret success,
         mkWorld (<[f := v]> (state w)) (fs w)
                 (log w ++ ["[Added to " +:+ f +:+ "] " +:+ r]))
    | inl e => (Raise e, w)
    end.
Proof.
  unfold append_to_state, state_get, state_set. py_unfold. cbn.
  destruct (py_add_list _ _); reflexivity.
Qed.

(** C1. When the field is unset, [append_to_state] returns its success
    status and leaves the field bound to the one-element sequence holding
    exactly the response. *)
Theorem append_to_state_unset_field (w : World) (f r : string) :
  state w !! f = None →
  ∃ w', append_to_state f r w = (Ret success, w') ∧
        state w' !! f = Some (PList [PStr r]).
Proof.
  intros Hf. rewrite append_to_state_run, Hf. cbn.
  eexists. split; [reflexivity |]. cbn. apply lookup_insert_eq.
Qed.

Lemma append_to_state_unset_field_witness :
  ∃ w', append_to_state "pos_data" "won at Austerlitz" (new_session (mkFS ∅ [])) =
          (Ret success, w') ∧
        state w' !! "pos_data" = Some (PList [PStr "won at Austerlitz"]).
Proof.
  apply (append_to_state_unset_field (new_session (mkFS ∅ []))
           "pos_data" "won at Austerlitz").
  reflexivity.
Defined.

(** C2. When the field holds a sequence [xs], [append_to_state] returns its
    success status and leaves the field bound to [xs] followed by the
    response: the earlier elements keep their order and their repetitions,
    and the response is added whether or not it already occurs in [xs] and
    whatever the length of [xs]. *)
Theorem append_to_state_existing_field (w : World) (f r : string) (xs : list pyval) :
  state w !! f = Some (PList xs) →
  ∃ w', append_to_state f r w = (Ret success, w') ∧
        state w' !! f = Some (PList (xs ++ [PStr r])).
Proof.
  intros Hf. rewrite append_to_state_run, Hf. cbn.
  eexists. split; [reflexivity |]. cbn. apply lookup_insert_eq.
Qed.

Lemma append_to_state_existing_field_witness :
  ∃ w', append_to_state "neg_data" "b"
          (mkWorld {[ "neg_data" := PList [PStr "b"; PStr "a"; PStr "b"] ]} (mkFS ∅ []) []) =
          (Ret success, w') ∧
        state w' !! "neg_data" = Some (PList ([PStr "b"; PStr "a"; PStr "b"] ++ [PStr "b"])).
Proof.
  apply (append_to_state_existing_field
           (mkWorld {[ "neg_data" := PList [PStr "b"; PStr "a"; PStr "b"] ]} (mkFS ∅ []) [])
           "neg_data" "b" [PStr "b"; PStr "a"; PStr "b"]).
  reflexivity.
Defined.

(** C9. A call of [append_to_state] on field [f] leaves every other key
    [g] of the state as it was, whatever the outcome of the call, and leaves
    the files alone; and it reads the state at [f] only: on a second world
    that agrees with the first at [f], the outcome and the value left at
    [f] are the same. *)
Theorem append_to_state_frame (w w2 : World) (f r g : string) :
  g ≠ f →
  state w2 !! f = state w !! f →
  state (snd (append_to_state f r w)) !! g = state w !! g ∧
  fs (snd (append_to_state f r w)) = fs w ∧
  fst (append_to_state f r w2) = fst (append_to_state f r w) ∧
  state (snd (append_to_state f r w2)) !! f =
    state (snd (append_to_state f r w)) !! f.
Proof.
  intros Hg H12. rewrite !append_to_state_run, H12.
  destruct (py_add_list _ _); cbn.
  - auto.
  - rewrite !lookup_insert_eq. rewrite lookup_insert_ne by congruence. auto.
Qed.

Lemma append_to_state_frame_witness :
  state (snd (append_to_state "pos_data" "x" prompt_world)) !! "PROMPT" =
    state prompt_world !! "PROMPT" ∧
  fs (snd (append_to_state "pos_data" "x" prompt_world)) = fs prompt_world ∧
  fst (append_to_state "pos_data" "x" (new_session (mkFS ∅ []))) =
    fst (append_to_state "pos_data" "x" prompt_world) ∧
  state (snd (append_to_state "pos_data" "x" (new_session (mkFS ∅ [])))) !! "pos_data" =
    state (snd (append_to_state "pos_data" "x" prompt_world)) !! "pos_data".
Proof.
  apply (append_to_state_frame prompt_world (new_session (mkFS ∅ []))
           "pos_data" "x" "PROMPT");
    [discriminate | reflexivity].
Defined.

(** ** Calls that only touch the files *)

Lemma fs_only_ret {A} (a : A) : fs_only (mret a).
Proof. intros w. split; reflexivity. Qed.

Lemma fs_only_raise {A} (e : exn) : fs_only (@raise A e).
Proof. intros w. split; reflexivity. Qed.

Lemma fs_only_bind {A B} (m : Py A) (k : A → Py B) :
  fs_only m → (∀ a, fs_only (k a)) → fs_only (m ≫= k).
Proof.
  intros Hm Hk w. specialize (Hm w). py_unfold.
  destruct (m w) as [[a | e] w1]; cbn in *.
  - destruct (Hk a w1) as [H1 H2]. rewrite H1, H2. exact Hm.
  - exact Hm.
Qed.

Lemma fs_only_try {A} (m : Py A) (c : exn → bool) (h : exn → Py A) :
  fs_only m → (∀ e, fs_only (h e)) → fs_only (try_except m c h).
Proof.
  intros Hm Hh w. specialize (Hm w). py_unfold.
  destruct (m w) as [[a | e] w1]; cbn in *; [exact Hm |].
  destruct (c e); cbn; [| exact Hm].
  destruct (Hh e w1) as [H1 H2]. rewrite H1, H2. exact Hm.
Qed.

Lemma fs_only_lift {A} (r : exn + A) : fs_only (lift_result r).
Proof. destruct r; intros w; split; reflexivity. Qed.

Lemma fs_only_get_fs : fs_only get_fs.
Proof. intros w. split; reflexivity. Qed.

Lemma fs_only_put_fs (f : FS) : fs_only (put_fs f).
Proof. intros w. split; reflexivity. Qed.

Create HintDb fs_only.
#[local] Hint Resolve fs_only_ret fs_only_raise fs_only_lift fs_only_get_fs
  fs_only_put_fs : fs_only.
#[local] Hint Extern 2 (fs_only (_ ≫= _)) =>
  apply fs_only_bind; [| intros ?] : fs_only.
#[local] Hint Extern 2 (fs_only (try_except _ _ _)) =>
  apply fs_only_try; [| intros ?] : fs_only.
#[local] Hint Extern 3 (fs_only (if ?b then _ else _)) => destruct b : fs_only.

Lemma fs_only_os_stat (p : string) : fs_only (os_stat p).
Proof. unfold os_stat. destruct (path_error p); auto with fs_only. Qed.

Lemma fs_only_os_mkdir (p : string) : fs_only (os_mkdir p).
Proof. unfold os_mkdir. destruct (path_error p); auto 6 with fs_only. Qed.

#[local] Hint Resolve fs_only_os_stat fs_only_os_mkdir : fs_only.

Lemma fs_only_exists (p : string) : fs_only (os_path_exists p).
Proof. unfold os_path_exists. auto with fs_only. Qed.

Lemma fs_only_isdir (p : string) : fs_only (os_path_isdir p).
Proof. unfold os_path_isdir. auto with fs_only. Qed.

#[local] Hint Resolve fs_only_exists fs_only_isdir : fs_only.

Lemma fs_only_makedirs_rec (n : nat) (name : string) : fs_only (makedirs_rec n name).
Proof.
  revert name. induction n as [| n IH]; intros name; cbn [makedirs_rec].
  - auto with fs_only.
  - unfold makedirs_body. auto 10 with fs_only.
Qed.

Lemma fs_only_open_w (p : string) : fs_only (open_w p).
Proof. unfold open_w. destruct (path_error p); auto 8 with fs_only. Qed.

Lemma fs_only_file_write (h : list string) (t : string) : fs_only (file_write h t).
Proof. unfold file_write. auto 6 with fs_only. Qed.

(** [write_file] leaves the session state alone. *)
Lemma write_file_state (d fn c : string) (w : World) :
  state (snd (write_file d fn c w)) = state w.
Proof.
  unfold write_file, os_makedirs.
  pose proof (fs_only_makedirs_rec (S (recursion_room host))
                (dirname (path_join d fn)) w) as [Hm _].
  revert Hm. generalize (makedirs_rec (S (recursion_room host))
                (dirname (path_join d fn))). intros m Hm.
  unfold mbind, py_bind, bind at 1.
  destruct (m w) as [[[] | e] w1]; cbn in Hm |- *; [| exact Hm].
  pose proof (fs_only_open_w (path_join d fn) w1) as [Ho _].
  unfold bind at 1.
  destruct (open_w (path_join d fn) w1) as [[h | e] w2]; cbn in Ho |- *;
    [| congruence].
  pose proof (fs_only_file_write h c w2) as [Hw _].
  unfold bind at 1.
  destruct (file_write h c w2) as [[[] | e] w3]; cbn in Hw |- *; congruence.
Qed.

(** ** The typing of the state keys *)

Lemma forallb_is_str_snoc (l : list pyval) (r : string) :
  forallb is_str (l ++ [PStr r]) = forallb is_str l.
Proof. rewrite forallb_app. cbn. apply andb_true_r. Qed.

(** A key that holds a sequence of strings holds one after any tool call. *)
Lemma run_call_keeps_str_list (c : tool_call) (w : World) (k : string) :
  holds is_str_list (state w) k = true →
  holds is_str_list (state (run_call c w)) k = true.
Proof.
  destruct c as [f r | d fn t]; cbn [run_call].
  - rewrite append_to_state_run. unfold holds.
    destruct (decide (k = f)) as [-> | Hk].
    + destruct (state w !! f) as [v |] eqn:Hf; cbn.
      * destruct v; cbn; rewrite ?Hf; try done.
        rewrite lookup_insert_eq. cbn. by rewrite forallb_is_str_snoc.
      * by rewrite lookup_insert_eq.
    + destruct (py_add_list _ _); cbn; [done |].
      by rewrite lookup_insert_ne.
  - by rewrite write_file_state.
Qed.

Lemma run_call_append_only (c : tool_call) (w : World) :
  append_only (state w) (state (run_call c w)).
Proof.
  intros k l Hk. destruct c as [f r | d fn t]; cbn [run_call].
  - rewrite append_to_state_run.
    destruct (decide (k = f)) as [-> | Hne].
    + rewrite Hk. cbn. exists [PStr r]. apply lookup_insert_eq.
    + exists []. rewrite app_nil_r.
      destruct (py_add_list _ _); cbn; [done |].
      by rewrite lookup_insert_ne.
  - exists []. by rewrite app_nil_r, write_file_state.
Qed.

(** Every state of a session types its keys so. *)
Lemma session_reachable_sequences (f : FS) (w : World) :
  rtc session_step (new_session f) w → seq_typing (state w).
Proof.
  revert w. apply rtc_ind_r.
  - repeat split.
  - intros y z _ [c] (Hp & Hpos & Hneg).
    repeat split; by apply run_call_keeps_str_list.
Qed.

(** C5, amended.  [PROMPT], [pos_data] and [neg_data] hold sequences of
    strings ([PROMPT] holds the sequence of the user's responses, not a bare
    string), and every step of a session that changes the state, the
    greeter's store among them, keeps it so and is append-only: each
    sequence of the state is a prefix of the one its key holds after the
    step. *)
Theorem session_step_keeps_sequences (w w' : World) :
  seq_typing (state w) →
  session_step w w' →
  seq_typing (state w') ∧ append_only (state w) (state w').
Proof.
  intros (Hp & Hpos & Hneg) [c]. split.
  - repeat split; by apply run_call_keeps_str_list.
  - apply run_call_append_only.
Qed.

(** ** The retry policy *)

(** C7. The model-backed agents of the system are the greeter, the admirer,
    the critic, the judge and the verdict writer, and the model of each of
    them carries the same retry options, [RETRY_OPTIONS]: 6 attempts with an
    initial delay of 1. *)
Theorem retry_policy_uniform (model_name : option string) :
  map agent_name (model_backed (root_agent model_name)) =
    ["judge_greeter"; "admirer"; "critic_researcher"; "judge"; "verdict_writer"] ∧
  Forall (λ a, ∃ g, agent_model a = Some g ∧ retry_options g = RETRY_OPTIONS)
         (model_backed (root_agent model_name)) ∧
  attempts RETRY_OPTIONS = 6%Z ∧
  initial_delay RETRY_OPTIONS = 1%Z.
Proof.
  split; [reflexivity |]. split; [| split; reflexivity].
  cbn. repeat constructor; eexists; (split; [reflexivity |]); reflexivity.
Qed.

(** ** The trial loop *)

(** In the trial loop only the judge holds [exit_loop], so a pass signals
    the exit exactly when the judge calls the tool. *)
Lemma trial_loop_signal (model_name : option string)
  (calls_exit : nat → string → bool) (i : nat) :
  body_signals calls_exit i [investigation_team model_name; judge model_name] =
    calls_exit i "judge".
Proof.
  unfold body_signals. cbn. by rewrite orb_false_r.
Qed.

Lemma trial_loop_step (model_name : option string)
  (calls_exit : nat → string → bool) (c : loop_config) :
  agent_loop_step (trial_loop model_name) calls_exit c =
    match phase c with
    | Iterating =>
        if calls_exit (passes c) "judge"
        then Some (mkLoop TerminatedBySignal (S (passes c)))
        else if Nat.ltb (S (passes c)) 3
             then Some (mkLoop Iterating (S (passes c)))
             else Some (mkLoop TerminatedByCap (S (passes c)))
    | TerminatedBySignal | TerminatedByCap => None
    end.
Proof.
  unfold trial_loop, agent_loop_step, loop_step.
  rewrite trial_loop_signal. reflexivity.
Qed.

Lemma trial_loop_reachable_inv (model_name : option string)
  (calls_exit : nat → string → bool) (c : loop_config) :
  loop_reachable (trial_loop model_name) calls_exit c →
  trial_loop_inv calls_exit c.
Proof.
  induction 1 as [| c c' _ IH Hstep].
  - split; [cbn; lia | intros i Hi; cbn in Hi; lia].
  - rewrite trial_loop_step in Hstep. unfold trial_loop_inv in *.
    destruct c as [ph n]. cbn [phase passes] in *.
    destruct ph; [| discriminate | discriminate].
    destruct IH as [Hn Hno].
    destruct (calls_exit n "judge") eqn:Hj.
    + injection Hstep as <-. cbn [phase passes].
      replace (S n - 1) with n by lia.
      repeat split; [lia | lia | exact Hj | exact Hno].
    + assert (Hno' : ∀ i, (i < S n)%nat → calls_exit i "judge" = false).
      { intros i Hi. destruct (decide (i = n)) as [-> | Hne]; [exact Hj |].
        apply Hno. lia. }
      destruct (Nat.ltb_spec (S n) 3); injection Hstep as <-; cbn [phase passes].
      * split; [lia | exact Hno'].
      * assert (n = 2) as -> by lia. split; [reflexivity | exact Hno'].
Qed.

Lemma loop_run_reachable (a : agent) (calls_exit : nat → string → bool)
  (fuel : nat) (c : loop_config) :
  loop_reachable a calls_exit c →
  loop_reachable a calls_exit (loop_run a calls_exit fuel c).
Proof.
  revert c. induction fuel as [| fuel IH]; intros c Hc; cbn [loop_run]; [exact Hc |].
  destruct (agent_loop_step a calls_exit c) as [c' |] eqn:Hstep; [| exact Hc].
  apply IH. by eapply reach_step.
Qed.

(** Three steps take the trial loop to a configuration with no step. *)
Lemma trial_loop_run_stuck (model_name : option string)
  (calls_exit : nat → string → bool) :
  agent_loop_step (trial_loop model_name) calls_exit
    (loop_run (trial_loop model_name) calls_exit 3 loop_init) = None.
Proof.
  unfold loop_init. cbn [loop_run].
  repeat (rewrite !trial_loop_step; cbn [phase passes Nat.ltb Nat.leb];
          try destruct (calls_exit _ "judge")).
  all: reflexivity.
Qed.

(** C6. The trial loop runs its body, the investigation team and then the
    judge, at most 3 times: every configuration it reaches has started at
    most 3 passes; a pass in which the judge calls [exit_loop] ends the loop
    by the signal; the loop can take no step exactly in the states
    terminated-by-signal and terminated-by-cap, the first reached only by a
    pass in which the judge called [exit_loop], the second only after 3
    passes without such a call; and whatever the judge decides, one of the
    two is reached within 3 steps. *)
Theorem trial_loop_bounded (model_name : option string)
  (calls_exit : nat → string → bool) :
  (∀ c, loop_reachable (trial_loop model_name) calls_exit c →
     (passes c ≤ 3)%nat ∧
     (agent_loop_step (trial_loop model_name) calls_exit c = None ↔
        phase c = TerminatedBySignal ∨ phase c = TerminatedByCap) ∧
     (phase c = Iterating → calls_exit (passes c) "judge" = true →
        agent_loop_step (trial_loop model_name) calls_exit c =
          Some (mkLoop TerminatedBySignal (S (passes c)))) ∧
     (phase c = TerminatedBySignal →
        calls_exit (passes c - 1) "judge" = true) ∧
     (phase c = TerminatedByCap →
        passes c = 3%nat ∧ ∀ i, (i < 3)%nat → calls_exit i "judge" = false)) ∧
  loop_reachable (trial_loop model_name) calls_exit
    (loop_run (trial_loop model_name) calls_exit 3 loop_init) ∧
  agent_loop_step (trial_loop model_name) calls_exit
    (loop_run (trial_loop model_name) calls_exit 3 loop_init) = None.
Proof.
  split; [| split].
  - intros c Hc. apply trial_loop_reachable_inv in Hc.
    rewrite trial_loop_step. unfold trial_loop_inv in Hc.
    destruct c as [ph n]. cbn [phase passes] in *.
    destruct ph.
    + destruct Hc as [Hn _]. split; [lia |]. split; [| split; [| split]].
      * split.
        -- destruct (calls_exit n "judge"); [discriminate |].
           destruct (Nat.ltb (S n) 3); discriminate.
        -- intros [H | H]; discriminate H.
      * intros _ ->. reflexivity.
      * discriminate.
      * discriminate.
    + destruct Hc as (Hn & Hj & _). split; [lia |]. split; [| split; [| split]].
      * split; auto.
      * discriminate.
      * intros _. exact Hj.
      * discriminate.
    + destruct Hc as [-> Hno]. split; [lia |]. split; [| split; [| split]].
      * split; auto.
      * discriminate.
      * discriminate.
      * intros _. split; [reflexivity | exact Hno].
  - apply loop_run_reachable. constructor.
  - apply trial_loop_run_stuck.
Qed.

(** ** [write_file]: the steps of a call *)

(** The call, step by step. *)
Lemma write_file_run (d fn c : string) (w : World) :
  write_file d fn c w =
    match os_makedirs (dirname (path_join d fn)) w with
    | (Raise e, w1) => (Raise e, w1)
    | (Ret _, w1) =>
        match open_w (path_join d fn) w1 with
        | (Raise e, w2) => (Raise e, w2)
        | (Ret h, w2) =>
            match file_write h c w2 with
            | (Raise e, w3) => (Raise e, w3)
            | (Ret _, w3) =>
                (Ret success,
                 mkWorld (state w3) (fs w3)
                         (log w3 ++ ["File written to " +:+ path_join d fn]))
            end
        end
    end.
Proof.
  unfold write_file. unfold mbind, py_bind. unfold bind at 1.
  destruct (os_makedirs _ w) as [[[] | e] w1]; [| reflexivity].
  unfold bind at 1.
  destruct (open_w _ w1) as [[h | e] w2]; [| reflexivity].
  unfold bind at 1.
  destruct (file_write h c w2) as [[[] | e] w3]; reflexivity.
Qed.

(** [write_file] raises exactly what one of its steps raises. *)
Lemma write_file_raises_iff (d fn c : string) (w : World) (e : exn) (w' : World) :
  write_file d fn c w = (Raise e, w') ↔ step_raises d fn c w e w'.
Proof.
  rewrite write_file_run. unfold step_raises.
  destruct (os_makedirs _ w) as [[[] | e1] w1] eqn:Hm.
  - destruct (open_w _ w1) as [[h | e2] w2] eqn:Ho.
    + destruct (file_write h c w2) as [[[] | e3] w3] eqn:Hw.
      * split; [discriminate |].
        intros [H | (w1' & H1 & [H | (h' & w2' & H2 & H3)])]; try discriminate.
        -- injection H1 as <-. congruence.
        -- injection H1 as <-. rewrite Ho in H2. injection H2 as <- <-. congruence.
      * split.
        -- intros H. right. exists w1. split; [done |]. right.
           exists h, w2. split; [done | congruence].
        -- intros [H | (w1' & H1 & [H | (h' & w2' & H2 & H3)])]; try discriminate.
           ++ injection H1 as <-. congruence.
           ++ injection H1 as <-. rewrite Ho in H2. injection H2 as <- <-.
              congruence.
    + split.
      * intros H. right. exists w1. split; [done |]. left. congruence.
      * intros [H | (w1' & H1 & [H | (h' & w2' & H2 & H3)])]; try discriminate.
        -- injection H1 as <-. congruence.
        -- injection H1 as <-. congruence.
  - split.
    + intros H. left. congruence.
    + intros [H | (w1' & H1 & _)]; [congruence | discriminate].
Qed.

(** The steps before the log line leave the log alone. *)
Lemma step_raises_log (d fn c : string) (w : World) (e : exn) (w' : World) :
  step_raises d fn c w e w' → state w' = state w ∧ log w' = log w.
Proof.
  unfold step_raises, os_makedirs.
  generalize (fs_only_makedirs_rec (S (recursion_room host))
                (dirname (path_join d fn)) w).
  intros Hm [H | (w1 & H1 & [H | (h & w2 & H2 & H3)])].
  - rewrite H in Hm. exact Hm.
  - rewrite H1 in Hm.
    pose proof (fs_only_open_w (path_join d fn) w1) as Ho. rewrite H in Ho.
    cbn in *. destruct Hm, Ho. split; congruence.
  - rewrite H1 in Hm.
    pose proof (fs_only_open_w (path_join d fn) w1) as Ho. rewrite H2 in Ho.
    pose proof (fs_only_file_write h c w2) as Hw. rewrite H3 in Hw.
    cbn in *. destruct Hm, Ho, Hw. split; congruence.
Qed.

(** C8. [write_file] handles no error: when the creation of the
    directories, the opening of the file or the write raises an error, the
    call raises this very error, in the world the failed step left; it does
    not return its success status and logs no line. *)
Theorem write_file_propagates (d fn c : string) (w : World) (e : exn) (w' : World) :
  step_raises d fn c w e w' →
  write_file d fn c w = (Raise e, w') ∧
  fst (write_file d fn c w) ≠ Ret success ∧
  log w' = log w.
Proof.
  intros H. pose proof (step_raises_log _ _ _ _ _ _ H) as [_ Hlog].
  apply write_file_raises_iff in H. rewrite H. cbn.
  split; [reflexivity |]. split; [discriminate | exact Hlog].
Qed.

(** ** [write_file] with an empty directory *)

Lemma cut_last_sep_no_sep (p : string) :
  has_sep p = false → cut_last_sep p = ("", p).
Proof.
  induction p as [| a p IH]; [reflexivity |].
  unfold has_sep. cbn [has_char]. intros H.
  apply orb_false_iff in H as [Ha Hp].
  cbn [cut_last_sep]. unfold has_sep. rewrite Hp.
  unfold is_sep. rewrite Ha. reflexivity.
Qed.

Lemma dirname_no_sep (p : string) : has_sep p = false → dirname p = "".
Proof.
  intros H. unfold dirname, path_split. by rewrite (cut_last_sep_no_sep p H).
Qed.

(** [os.makedirs("")] raises [FileNotFoundError] and changes nothing. *)
Lemma os_makedirs_empty (w : World) :
  os_makedirs "" w = (Raise FileNotFoundError, w).
Proof. reflexivity. Qed.

(** C10. With an empty directory and a file name without a separator,
    [write_file] raises an error, [FileNotFoundError], from [os.makedirs]
    called on the empty directory name of the joined path; the world is
    left as it was: no file is written, in the working directory or
    elsewhere, and no line is logged. *)
Theorem write_file_empty_directory (w : World) (fn c : string) :
  has_sep fn = false →
  path_join "" fn = fn ∧
  dirname (path_join "" fn) = "" ∧
  write_file "" fn c w = (Raise FileNotFoundError, w).
Proof.
  intros H.
  assert (Hj : path_join "" fn = fn).
  { unfold path_join. cbn. by rewrite orb_true_r. }
  rewrite Hj. split; [reflexivity |].
  pose proof (dirname_no_sep fn H) as Hd. split; [exact Hd |].
  rewrite write_file_run, Hj, Hd, os_makedirs_empty. reflexivity.
Qed.

(** ** Strings and path names *)

Lemma path_components_nonempty (p : string) : path_components p ≠ [].
Proof.
  destruct p as [| a p]; [done |]. cbn [path_components].
  destruct (is_sep a); [done |]. by destruct (path_components p).
Qed.



Lemma string_app_cons (y : ascii) (a b : string) :
  String y a +:+ b = String y (a +:+ b).
Proof. reflexivity. Qed.

Lemma string_app_nil (b : string) : "" +:+ b = b.
Proof. reflexivity. Qed.

(** ** The parent directory of the target, for any path *)

Lemma string_app_nil_r (a : string) : a +:+ "" = a.
Proof.
  induction a as [| y a IH]; [reflexivity |]. by rewrite string_app_cons, IH.
Qed.

Lemma string_app_assoc (a b c : string) : (a +:+ b) +:+ c = a +:+ (b +:+ c).
Proof.
  induction a as [| y a IH]; [reflexivity |]. by rewrite !string_app_cons, IH.
Qed.

Lemma has_char_app (x : ascii) (a b : string) :
  has_char x (a +:+ b) = has_char x a || has_char x b.
Proof.
  induction a as [| y a IH]; [reflexivity |].
  rewrite ?string_app_cons, ?string_app_nil; cbn [has_char]. by rewrite IH, orb_assoc.
Qed.



Lemma no_sep_starts (c : string) : has_sep c = false → starts_with_sep c = false.
Proof.
  unfold has_sep. destruct c as [| y c]; [reflexivity |]. cbn.
  intros H. by apply orb_false_iff in H as [Hy _].
Qed.

Lemma path_components_app_sep (a b : string) :
  path_components (a +:+ String "/" b) = path_components a ++ path_components b.
Proof.
  induction a as [| y a IH]; [reflexivity |].
  rewrite ?string_app_cons, ?string_app_nil; cbn [path_components]. rewrite IH.
  pose proof (path_components_nonempty a) as Hne.
  destruct (is_sep y); [reflexivity |].
  by destruct (path_components a).
Qed.

Lemma path_components_no_sep (c : string) :
  has_sep c = false → path_components c = [c].
Proof.
  unfold has_sep. induction c as [| y c IH]; [reflexivity |]. cbn [has_char].
  intros H. apply orb_false_iff in H as [Hy Hc]. cbn [path_components].
  unfold is_sep. rewrite Hy, (IH Hc). reflexivity.
Qed.

Lemma cut_last_sep_app (a c : string) :
  has_sep c = false → cut_last_sep (a +:+ String "/" c) = (a +:+ "/", c).
Proof.
  intros Hc. induction a as [| y a IH].
  - rewrite !string_app_nil. cbn [cut_last_sep]. rewrite Hc. reflexivity.
  - rewrite string_app_cons. cbn [cut_last_sep].
    assert (Hs : has_sep (a +:+ String "/" c) = true).
    { unfold has_sep. rewrite has_char_app. cbn [has_char].
      change (Ascii.eqb "/" "/") with true. apply orb_true_r. }
    rewrite Hs, IH. reflexivity.
Qed.

Lemma all_sep_app (a b : string) : all_sep (a +:+ b) = all_sep a && all_sep b.
Proof.
  induction a as [| y a IH]; [reflexivity |].
  rewrite ?string_app_cons, ?string_app_nil; cbn [all_sep]. by rewrite IH, andb_assoc.
Qed.

Lemma not_all_sep (a : string) :
  a ≠ "" → ends_with_sep a = false → all_sep a = false.
Proof.
  induction a as [| y a IH]; [done |]. intros _. cbn [ends_with_sep all_sep].
  destruct a as [| z a].
  - intros ->. reflexivity.
  - intros H. rewrite IH; [apply andb_false_r | done | exact H].
Qed.

Lemma rstrip_sep_app_sep (a : string) : rstrip_sep (a +:+ "/") = rstrip_sep a.
Proof.
  induction a as [| y a IH]; [reflexivity |].
  rewrite ?string_app_cons, ?string_app_nil; cbn [rstrip_sep all_sep]. rewrite all_sep_app, IH. cbn.
  by rewrite andb_true_r.
Qed.

Lemma rstrip_sep_id (a : string) : ends_with_sep a = false → rstrip_sep a = a.
Proof.
  induction a as [| y a IH]; [reflexivity |]. intros H.
  cbn [rstrip_sep]. rewrite (not_all_sep (String y a)) by done.
  destruct a as [| z a]; [reflexivity |]. f_equal. by apply IH.
Qed.

(** [split] on a path whose last name has no separator. *)
Lemma path_split_app (a c : string) :
  a ≠ "" → ends_with_sep a = false → has_sep c = false →
  path_split (a +:+ String "/" c) = (a, c).
Proof.
  intros Ha He Hc. unfold path_split. rewrite (cut_last_sep_app a c Hc).
  rewrite all_sep_app, (not_all_sep a Ha He). cbn [andb negb].
  destruct (String.eqb_spec (a +:+ "/") "") as [Heq | _].
  - destruct a; discriminate.
  - cbn. by rewrite rstrip_sep_app_sep, rstrip_sep_id.
Qed.

Lemma path_split_no_sep (c : string) :
  has_sep c = false → path_split c = ("", c).
Proof.
  intros Hc. unfold path_split. by rewrite (cut_last_sep_no_sep c Hc).
Qed.

Lemma path_join_plain (a c : string) :
  has_sep c = false → a ≠ "" → ends_with_sep a = false →
  path_join a c = a +:+ String "/" c.
Proof.
  intros Hc Ha He. unfold path_join. rewrite (no_sep_starts c Hc), He.
  destruct (String.eqb_spec a ""); done.
Qed.

Lemma is_sep_eq (a : ascii) : is_sep a = true → a = "/"%char.
Proof. unfold is_sep. apply Ascii.eqb_eq. Qed.

(** [p] is cut after its last separator. *)
Lemma cut_last_sep_spec (p : string) :
  has_sep p = true →
  ∃ q, fst (cut_last_sep p) = q +:+ "/" ∧
       p = q +:+ String "/" (snd (cut_last_sep p)) ∧
       has_sep (snd (cut_last_sep p)) = false.
Proof.
  induction p as [| a p IH]; [done |]. intros Hp. cbn [cut_last_sep].
  destruct (has_sep p) eqn:Hs.
  - destruct (IH eq_refl) as (q & H1 & H2 & H3). exists (String a q).
    cbn [fst snd]. rewrite !string_app_cons, H1, <- H2. done.
  - destruct (is_sep a) eqn:Ha.
    + apply is_sep_eq in Ha as ->. exists "". cbn [fst snd]. done.
    + unfold has_sep in *. cbn [has_char] in Hp. unfold is_sep in Ha.
      rewrite Ha, Hs in Hp. done.
Qed.

Lemma all_sep_seps (s : string) : all_sep s = true → s = seps (String.length s).
Proof.
  induction s as [| a s IH]; [reflexivity |]. cbn [all_sep String.length seps].
  intros H. apply andb_true_iff in H as [Ha Hs].
  apply is_sep_eq in Ha as ->. by rewrite <- IH.
Qed.

Lemma rstrip_sep_spec (q : string) : ∃ j, q = rstrip_sep q +:+ seps j.
Proof.
  induction q as [| a q IH]; [by exists 0 |]. cbn [rstrip_sep].
  destruct (all_sep (String a q)) eqn:Hall.
  - exists (String.length (String a q)). rewrite string_app_nil.
    by apply all_sep_seps.
  - destruct IH as [j Hj]. exists j. by rewrite string_app_cons, <- Hj.
Qed.

Lemma path_components_seps (j : nat) : path_components (seps j) = replicate (S j) "".
Proof. induction j as [| j IH]; [reflexivity |]. cbn. by rewrite IH. Qed.

Lemma path_components_app_seps (r : string) (j : nat) :
  path_components (r +:+ seps j) = path_components r ++ replicate j "".
Proof.
  destruct j as [| j].
  - cbn [seps replicate]. by rewrite string_app_nil_r, app_nil_r.
  - cbn [seps]. by rewrite path_components_app_sep, path_components_seps.
Qed.

Lemma starts_with_sep_app (a b : string) :
  a ≠ "" → starts_with_sep (a +:+ b) = starts_with_sep a.
Proof. by destruct a. Qed.

(** ** Writing a second time *)

Lemma all_sep_no_sep (s : string) : all_sep s = true → has_sep s = false → s = "".
Proof.
  destruct s as [| a s]; [done |]. unfold has_sep. cbn [all_sep has_char].
  intros H1 H2. apply andb_true_iff in H1 as [Ha _].
  apply orb_false_iff in H2 as [Ha' _]. unfold is_sep in Ha. congruence.
Qed.

Lemma cut_last_sep_tail (s : string) :
  s ≠ "" → ends_with_sep s = false → snd (cut_last_sep s) ≠ "".
Proof.
  induction s as [| a s IH]; [done |]. intros _ He. cbn [cut_last_sep].
  destruct (has_sep s) eqn:Hsep.
  - cbn [snd]. destruct s as [| b s]; [done |]. by apply IH.
  - destruct (is_sep a) eqn:Ha; cbn [snd]; [| done].
    destruct s; [| done]. cbn in He. congruence.
Qed.




Lemma strip_trailing_empty_spec (cs : list string) :
  ∃ j, cs = strip_trailing_empty cs ++ replicate j "".
Proof.
  induction cs as [| c cs [j IH]]; [by exists 0 |]. cbn [strip_trailing_empty].
  destruct (strip_trailing_empty cs) as [| c' r] eqn:Hs.
  - destruct (String.eqb_spec c "") as [-> | _].
    + exists (S j). cbn. by rewrite IH.
    + exists j. cbn. by rewrite IH.
  - exists j. cbn. rewrite IH at 1. reflexivity.
Qed.

Lemma strip_trailing_empty_last (cs : list string) :
  strip_trailing_empty cs ≠ [] → List.last (strip_trailing_empty cs) "" ≠ "".
Proof.
  induction cs as [| c cs IH]; [done |]. cbn [strip_trailing_empty].
  destruct (strip_trailing_empty cs) as [| c' r] eqn:Hs.
  - destruct (String.eqb_spec c ""); [done | by cbn].
  - intros _. specialize (IH ltac:(done)). exact IH.
Qed.


(** ** The names of a path *)

Lemma filter_empties (j : nat) : List.filter nonempty (replicate j "") = [].
Proof. induction j as [| j IH]; [reflexivity | exact IH]. Qed.

Lemma names_app_sep (a b : string) :
  names (a +:+ String "/" b) = names a ++ names b.
Proof. unfold names. by rewrite path_components_app_sep, List.filter_app. Qed.

Lemma names_no_sep (c : string) :
  has_sep c = false → names c = if String.eqb c "" then [] else [c].
Proof.
  intros H. unfold names. rewrite (path_components_no_sep c H). cbn.
  unfold nonempty. by destruct (String.eqb c "").
Qed.

Lemma names_app_seps (r : string) (j : nat) : names (r +:+ seps j) = names r.
Proof.
  unfold names. by rewrite path_components_app_seps, List.filter_app,
    filter_empties, app_nil_r.
Qed.

Lemma names_all_sep (s : string) : all_sep s = true → names s = [].
Proof.
  intros H. rewrite (all_sep_seps s H). unfold names.
  rewrite path_components_seps. apply (filter_empties (S _)).
Qed.


(** [split] cuts the last name off the names of a path; the head starts
    like the path and is the beginning of it. *)
Lemma path_split_names (p : string) :
  names p = names (fst (path_split p)) ++
            (if String.eqb (snd (path_split p)) "" then [] else [snd (path_split p)]) ∧
  (fst (path_split p) ≠ "" →
   starts_with_sep (fst (path_split p)) = starts_with_sep p) ∧
  ∃ r, p = fst (path_split p) +:+ r.
Proof.
  destruct (has_sep p) eqn:Hs.
  2: { rewrite (path_split_no_sep p Hs). cbn [fst snd].
       split; [by rewrite (names_no_sep p Hs) |]. split; [done |]. by exists p. }
  destruct (cut_last_sep_spec p Hs) as (q & H1 & H2 & H3).
  unfold path_split. destruct (cut_last_sep p) as [hd tl]. cbn [fst snd] in *.
  subst hd.
  assert (Hn : names p = names q ++ (if String.eqb tl "" then [] else [tl])).
  { rewrite H2 at 1. by rewrite names_app_sep, (names_no_sep tl H3). }
  assert (Hqne : q +:+ "/" ≠ "") by (by destruct q).
  destruct (String.eqb_spec (q +:+ "/") "") as [| _]; [done |]. cbn [negb andb].
  destruct (all_sep (q +:+ "/")) eqn:Hall; cbn [negb].
  - split; [| split].
    + rewrite Hn. f_equal. rewrite (names_all_sep _ Hall).
      rewrite all_sep_app in Hall. apply andb_true_iff in Hall as [Hq _].
      by apply names_all_sep.
    + intros _. rewrite H2. change (String "/" tl) with ("/" +:+ tl).
      rewrite <- string_app_assoc. by rewrite (starts_with_sep_app (q +:+ "/") tl Hqne).
    + exists tl. rewrite string_app_assoc. exact H2.
  - rewrite rstrip_sep_app_sep. destruct (rstrip_sep_spec q) as [j Hj].
    split; [| split].
    + rewrite Hn. f_equal. rewrite Hj at 1. apply names_app_seps.
    + intros Hne. rewrite H2. rewrite Hj at 2. rewrite string_app_assoc.
      by rewrite starts_with_sep_app.
    + exists (seps j +:+ String "/" tl). rewrite <- string_app_assoc, <- Hj.
      exact H2.
Qed.

(** The head and the tail that [os.makedirs] works with: the tail is the
    last name of the path, the head has the names before it. *)
Lemma makedirs_split_names (name : string) :
  let ht := path_split name in
  let ht := if String.eqb (snd ht) "" then path_split (fst ht) else ht in
  names name = names (fst ht) ++ (if String.eqb (snd ht) "" then [] else [snd ht]) ∧
  (fst ht ≠ "" → starts_with_sep (fst ht) = starts_with_sep name) ∧
  ∃ r, name = fst ht +:+ r.
Proof.
  cbn zeta. destruct (path_split_names name) as (Hn & Hs & [r Hr]).
  destruct (String.eqb_spec (snd (path_split name)) "") as [He | Hne].
  - rewrite app_nil_r in Hn.
    destruct (path_split_names (fst (path_split name))) as (Hn' & Hs' & [r' Hr']).
    split; [by rewrite Hn |]. split.
    + intros Hh. rewrite (Hs' Hh). apply Hs. intros H0. rewrite H0 in Hh.
      by apply Hh.
    + exists (r' +:+ r). rewrite Hr at 1. rewrite Hr' at 1.
      by rewrite string_app_assoc.
  - destruct (String.eqb_spec (snd (path_split name)) "") as [| _]; [done |].
    split; [exact Hn |]. split; [exact Hs | by exists r].
Qed.

Lemma strip_trailing_empty_names (cs pre : list string) (t : string) :
  List.filter nonempty cs = pre ++ [t] →
  ∃ a, strip_trailing_empty cs = a ++ [t] ∧ List.filter nonempty a = pre.
Proof.
  intros H. destruct (strip_trailing_empty_spec cs) as [j Hj].
  pose proof (strip_trailing_empty_last cs) as Hl.
  rewrite Hj, List.filter_app, filter_empties, app_nil_r in H.
  destruct (strip_trailing_empty cs) as [| s0 c0 _] using rev_ind.
  - by destruct pre.
  - rewrite last_last in Hl. rewrite List.filter_app in H. cbn in H.
    destruct (String.eqb_spec s0 "") as [-> | Hs0].
    + exfalso. apply Hl; [by destruct c0 | done].
    + unfold nonempty in H at 2. destruct (String.eqb_spec s0 ""); [done |].
      cbn in H. apply app_inj_tail in H as [H1 H2]. subst. by exists c0.
Qed.

Lemma strip_trailing_empty_no_names (cs : list string) :
  List.filter nonempty cs = [] → strip_trailing_empty cs = [].
Proof.
  induction cs as [| c cs IH]; [done |]. cbn. unfold nonempty at 1.
  destruct (String.eqb_spec c "") as [-> | _]; cbn; [| done].
  intros H. by rewrite (IH H).
Qed.


(** ** Encoding and length of the beginning of a path *)

Lemma all_chars_app (ok : ascii → bool) (a b : string) :
  all_chars ok (a +:+ b) = all_chars ok a && all_chars ok b.
Proof.
  induction a as [| y a IH]; [reflexivity |].
  rewrite string_app_cons. cbn [all_chars]. by rewrite IH, andb_assoc.
Qed.


Lemma path_error_none (p : string) :
  path_error p = None ↔ fs_encodable p = true ∧ has_nul p = false.
Proof.
  unfold path_error. destruct (fs_encodable p), (has_nul p); cbn; split;
    try done; by intros [? ?].
Qed.



(** ** Path resolution *)




Lemma walk_error (m : gmap (list string) node) (cur cs : list string) (e : exn) :
  walk m cur cs = inl e → is_OSError e = true.
Proof.
  revert cur. induction cs as [| c cs IH]; intros cur; cbn [walk]; [done |].
  destruct (m !! cur) as [[wr | wf t] |]; [| by intros [= <-] | by intros [= <-]].
  destruct (name_too_long c); [by intros [= <-] | apply IH].
Qed.

Lemma walk_dir_error (m : gmap (list string) node) (cur cs : list string) (e : exn) :
  walk_dir m cur cs = inl e → is_OSError e = true.
Proof.
  unfold walk_dir. destruct (walk m cur cs) as [e' | k] eqn:Hw.
  - intros [= <-]. by apply walk_error in Hw.
  - destruct (m !! k) as [[wr | wf t] |]; [done | |]; by intros [= <-].
Qed.

Lemma walk_dir_cons (m : gmap (list string) node) (cur : list string) (c : string)
  (cs : list string) :
  walk_dir m cur (c :: cs) =
    match m !! cur with
    | Some (Dir _) =>
        if name_too_long c then inl OSError else walk_dir m (walk_step cur c) cs
    | Some (File _ _) => inl NotADirectoryError
    | None => inl FileNotFoundError
    end.
Proof.
  unfold walk_dir. cbn [walk].
  destruct (m !! cur) as [[wr | wf t] |]; [| done | done].
  by destruct (name_too_long c).
Qed.


(** From a key that holds no directory a lookup goes nowhere. *)
Lemma walk_dir_stuck (m : gmap (list string) node) (cur cs : list string) :
  (∀ wr, m !! cur ≠ Some (Dir wr)) →
  walk_dir m cur cs =
    match m !! cur with
    | Some _ => inl NotADirectoryError
    | None => inl FileNotFoundError
    end.
Proof.
  intros H. destruct cs as [| c cs].
  - unfold walk_dir. cbn [walk]. destruct (m !! cur) as [[wr | wf t] |]; [| done | done].
    by destruct (H wr).
  - rewrite walk_dir_cons. destruct (m !! cur) as [[wr | wf t] |]; [| done | done].
    by destruct (H wr).
Qed.

(** Empty names do not count on the way to a directory. *)
Lemma walk_dir_names (m : gmap (list string) node) (cur cs : list string) :
  walk_dir m cur cs = walk_dir m cur (List.filter nonempty cs).
Proof.
  revert cur. induction cs as [| c cs IH]; intros cur; [reflexivity |].
  cbn [List.filter]. unfold nonempty at 1.
  destruct (String.eqb_spec c "") as [-> | Hc]; cbn [negb].
  - rewrite <- IH, walk_dir_cons.
    destruct (m !! cur) as [[wr | wf t] |] eqn:Hcur.
    + reflexivity.
    + rewrite walk_dir_stuck by (intros wr; congruence). by rewrite Hcur.
    + rewrite walk_dir_stuck by (intros wr; congruence). by rewrite Hcur.
  - rewrite !walk_dir_cons. destruct (m !! cur) as [[wr | wf t] |]; [| done | done].
    destruct (name_too_long c); [done | apply IH].
Qed.




(** ** Following names and creating directories *)










(** ** The system calls, by the names of the path *)

Lemma match_nonempty {A B} (l : list A) (x y : B) :
  l ≠ [] → match l with [] => x | _ :: _ => y end = y.
Proof. by destruct l. Qed.

Lemma names_empty (p : string) (pre : list string) (t : string) :
  names p = pre ++ [t] → p ≠ "".
Proof. intros H ->. by destruct pre. Qed.





(** [open] for writing on a path with a last name. *)
Lemma sys_open_names (f : FS) (p : string) (pre : list string) (t : string) :
  names p = pre ++ [t] →
  sys_open_trunc f p =
    if path_too_long p then inl OSError
    else match walk_dir (nodes f) (start_dir f p) pre with
         | inl e => inl e
         | inr (k, wr) =>
             if ends_with_sep p || is_dot t then inl IsADirectoryError
             else if name_too_long t then inl OSError
             else match nodes f !! (k ++ [t]) with
                  | Some (Dir _) => inl IsADirectoryError
                  | Some (File wf _) =>
                      if wf
                      then inr (with_nodes f (<[k ++ [t] := File wf ""]> (nodes f)),
                                k ++ [t])
                      else inl PermissionError
                  | None =>
                      if wr
                      then inr (with_nodes f (<[k ++ [t] := File true ""]> (nodes f)),
                                k ++ [t])
                      else inl PermissionError
                  end
         end.
Proof.
  intros Hn. pose proof (names_empty p pre t Hn) as Hp.
  destruct (strip_trailing_empty_names (path_components p) pre t Hn) as (a & Ha & Hf).
  unfold sys_open_trunc. destruct (String.eqb_spec p ""); [done |].
  destruct (path_too_long p); [reflexivity |].
  cbn zeta. rewrite Ha, match_nonempty by (by destruct a).
  unfold walk_parent. by rewrite removelast_last, last_last, walk_dir_names, Hf.
Qed.

Lemma sys_open_no_names (f : FS) (p : string) :
  names p = [] → ∃ e, sys_open_trunc f p = inl e.
Proof.
  intros Hn. unfold sys_open_trunc. destruct (String.eqb p ""); [by eexists |].
  destruct (path_too_long p); [by eexists |].
  cbn zeta. rewrite (strip_trailing_empty_no_names _ Hn). by eexists.
Qed.

Lemma names_last (p : string) :
  names p ≠ [] → names p = dir_names p ++ [last_name p].
Proof. intros H. unfold dir_names, last_name. by apply app_removelast_last. Qed.

(** What [open] for writing found when it returns: the names before the
    last one lead to a directory, and the last one names nothing there, in
    a writable directory, or a writable file. *)
Lemma sys_open_trunc_inv (f f' : FS) (p : string) (h : list string) :
  sys_open_trunc f p = inr (f', h) →
  ∃ k wr,
    names p = dir_names p ++ [last_name p] ∧
    path_too_long p = false ∧ ends_with_sep p = false ∧
    is_dot (last_name p) = false ∧ name_too_long (last_name p) = false ∧
    walk_dir (nodes f) (start_dir f p) (dir_names p) = inr (k, wr) ∧
    h = k ++ [last_name p] ∧
    ((nodes f !! h = None ∧ wr = true) ∨ ∃ t, nodes f !! h = Some (File true t)) ∧
    f' = with_nodes f (<[h := File true ""]> (nodes f)).
Proof.
  intros H.
  assert (Hn : names p = dir_names p ++ [last_name p]).
  { apply names_last. intros Hn0.
    destruct (sys_open_no_names f p Hn0) as [e He]. congruence. }
  rewrite (sys_open_names f p _ _ Hn) in H.
  destruct (path_too_long p); [done |].
  destruct (walk_dir _ _ _) as [e | [k wr]]; [done |].
  destruct (ends_with_sep p); [done |]. cbn [orb] in H.
  destruct (is_dot (last_name p)); [done |].
  destruct (name_too_long (last_name p)); [done |].
  exists k, wr.
  destruct (nodes f !! (k ++ [last_name p])) as [[wd | wf t] |] eqn:Hk; [done | |].
  - destruct wf; [| done]. injection H as <- <-. rewrite Hk.
    repeat split; try done. right. by exists t.
  - destruct wr; [| done]. injection H as <- <-. rewrite Hk.
    repeat split; try done. by left.
Qed.

(** ** The [os] functions as functions of the file system *)

Lemma bind_run {A B} (m : Py A) (k : A → Py B) (w : World) :
  (m ≫= k) w = match m w with
               | (Ret a, w') => k a w'
               | (Raise e, w') => (Raise e, w')
               end.
Proof. reflexivity. Qed.

Lemma sys_stat_error (f : FS) (p : string) (e : exn) :
  sys_stat f p = inl e → is_OSError e = true.
Proof.
  unfold sys_stat. destruct (String.eqb p ""); [by intros [= <-] |].
  destruct (path_too_long p); [by intros [= <-] |].
  destruct (walk _ _ _) as [e' | k] eqn:Hw.
  - intros [= <-]. by apply walk_error in Hw.
  - destruct (nodes f !! k); [done | by intros [= <-]].
Qed.

Lemma path_error_caught (p : string) (e : exn) :
  path_error p = Some e → is_ValueError e = true.
Proof.
  unfold path_error. destruct (fs_encodable p); cbn; [| by intros [= <-]].
  destruct (has_nul p); [by intros [= <-] | done].
Qed.

Lemma os_path_exists_run (p : string) (w : World) :
  os_path_exists p w = (Ret (path_exists (fs w) p), w).
Proof.
  unfold os_path_exists, os_stat, path_exists, try_except.
  destruct (path_error p) as [e |] eqn:Hpe.
  - py_unfold. cbn. unfold catches_stat.
    by rewrite (path_error_caught p e Hpe), orb_true_r.
  - py_unfold. cbn.
    destruct (sys_stat (fs w) p) as [e |] eqn:Hs; cbn; [| reflexivity].
    unfold catches_stat. by rewrite (sys_stat_error _ _ _ Hs).
Qed.

Lemma os_path_isdir_run (p : string) (w : World) :
  os_path_isdir p w = (Ret (path_isdir (fs w) p), w).
Proof.
  unfold os_path_isdir, os_stat, path_isdir, try_except.
  destruct (path_error p) as [e |] eqn:Hpe.
  - py_unfold. cbn. unfold catches_stat.
    by rewrite (path_error_caught p e Hpe), orb_true_r.
  - py_unfold. cbn.
    destruct (sys_stat (fs w) p) as [e |] eqn:Hs; cbn; [| reflexivity].
    unfold catches_stat. by rewrite (sys_stat_error _ _ _ Hs).
Qed.

Lemma os_mkdir_run (p : string) (w : World) :
  os_mkdir p w =
    match path_error p with
    | Some e => (Raise e, w)
    | None => match sys_mkdir (fs w) p with
              | inl e => (Raise e, w)
              | inr f' => (Ret tt, set_fs w f')
              end
    end.
Proof.
  unfold os_mkdir. destruct (path_error p); [reflexivity |]. py_unfold. cbn.
  by destruct (sys_mkdir (fs w) p).
Qed.

Lemma open_w_run (p : string) (w : World) :
  open_w p w =
    match path_error p with
    | Some e => (Raise e, w)
    | None => match sys_open_trunc (fs w) p with
              | inl e => (Raise e, w)
              | inr r => (Ret (snd r), set_fs w (fst r))
              end
    end.
Proof.
  unfold open_w. destruct (path_error p); [reflexivity |]. py_unfold. cbn.
  by destruct (sys_open_trunc (fs w) p).
Qed.

Lemma file_write_run (h : list string) (t : string) (w : World) :
  file_write h t w =
    if text_encodable t
    then match sys_write (fs w) h t with
         | inl e => (Raise e, w)
         | inr f' => (Ret tt, set_fs w f')
         end
    else (Raise UnicodeEncodeError, w).
Proof.
  unfold file_write. destruct (text_encodable t); [| reflexivity].
  py_unfold. cbn. by destruct (sys_write (fs w) h t).
Qed.


(** ** [os.makedirs] *)











(** ** The target path *)


(** A path that ends with a name: the name is what [split] cuts off, and
    the directory name has the names before it. *)
Lemma target_names (p : string) :
  p ≠ "" → ends_with_sep p = false →
  names p = names (dirname p) ++ [last_name p] ∧
  dir_names p = names (dirname p) ∧
  last_name p ≠ "".
Proof.
  intros Hp He. destruct (path_split_names p) as (Hn & _).
  assert (Ht : snd (path_split p) ≠ "").
  { unfold path_split. pose proof (cut_last_sep_tail p Hp He).
    by destruct (cut_last_sep p). }
  destruct (String.eqb_spec (snd (path_split p)) ""); [done |].
  fold (dirname p) in Hn. unfold dir_names, last_name.
  rewrite Hn, removelast_last, last_last. by repeat split.
Qed.


Lemma dirname_prefix (p : string) : ∃ r, p = dirname p +:+ r.
Proof. by destruct (path_split_names p) as (_ & _ & H). Qed.




(** ** The steps of a call that returns *)

Lemma write_file_ret (d fn c : string) (w w' : World) (v : list (string * string)) :
  write_file d fn c w = (Ret v, w') →
  v = success ∧
  ∃ w1 h w2 w3,
    os_makedirs (dirname (path_join d fn)) w = (Ret tt, w1) ∧
    open_w (path_join d fn) w1 = (Ret h, w2) ∧
    file_write h c w2 = (Ret tt, w3) ∧
    w' = mkWorld (state w3) (fs w3) (log w3 ++ ["File written to " +:+ path_join d fn]).
Proof.
  rewrite write_file_run.
  destruct (os_makedirs _ w) as [[[] | e1] w1] eqn:Hm; [| done].
  destruct (open_w _ w1) as [[h | e2] w2] eqn:Ho; [| done].
  destruct (file_write h c w2) as [[[] | e3] w3] eqn:Hw; [| done].
  intros [= <- <-]. split; [done |]. by exists w1, h, w2, w3.
Qed.

Lemma os_makedirs_nonempty (name : string) (w w1 : World) :
  os_makedirs name w = (Ret tt, w1) → name ≠ "".
Proof. intros H ->. by rewrite os_makedirs_empty in H. Qed.

(** What holds after a call that returns.  The directories were created
    first; the target path can be encoded and ends with a name, not [.] or
    [..]; the names before it lead to a directory, where the name stood for
    nothing or for a writable file, and now stands for a writable file with
    the content; nothing else has changed since the directories were
    created, but the log. *)
Lemma write_file_post (d fn c : string) (w w' : World) (v : list (string * string)) :
  write_file d fn c w = (Ret v, w') →
  ∃ w1 k wr,
    v = success ∧
    os_makedirs (dirname (path_join d fn)) w = (Ret tt, w1) ∧
    path_error (path_join d fn) = None ∧ text_encodable c = true ∧
    path_join d fn ≠ "" ∧ dirname (path_join d fn) ≠ "" ∧
    path_too_long (path_join d fn) = false ∧
    ends_with_sep (path_join d fn) = false ∧
    is_dot (last_name (path_join d fn)) = false ∧
    name_too_long (last_name (path_join d fn)) = false ∧
    walk_dir (nodes (fs w1)) (start_dir (fs w1) (path_join d fn))
             (names (dirname (path_join d fn))) = inr (k, wr) ∧
    ((nodes (fs w1) !! (k ++ [last_name (path_join d fn)]) = None ∧ wr = true) ∨
     ∃ t, nodes (fs w1) !! (k ++ [last_name (path_join d fn)]) = Some (File true t)) ∧
    w' = mkWorld (state w1)
           (mkFS (<[k ++ [last_name (path_join d fn)] := File true c]> (nodes (fs w1)))
                 (cwd (fs w1)))
           (log w1 ++ ["File written to " +:+ path_join d fn]).
Proof.
  intros H. apply write_file_ret in H as (-> & w1 & h & w2 & w3 & Hm & Ho & Hw & ->).
  set (p := path_join d fn) in *.
  pose proof (os_makedirs_nonempty _ _ _ Hm) as Hd.
  rewrite open_w_run in Ho. destruct (path_error p) eqn:Hpe; [done |].
  destruct (sys_open_trunc (fs w1) p) as [e | [f' h']] eqn:Hopen; [done |].
  cbn [fst snd] in Ho. injection Ho as <- <-.
  apply sys_open_trunc_inv in Hopen
    as (k & wr & Hn & Hl & He & Hdot & Hlong & Hwalk & -> & Hold & ->).
  assert (Hp : p ≠ "") by (by apply (names_empty p _ _ Hn)).
  destruct (target_names p Hp He) as (_ & Hdn & _). rewrite Hdn in Hwalk.
  rewrite file_write_run in Hw. destruct (text_encodable c); [| done].
  unfold sys_write, set_fs, with_nodes in Hw. cbn [fs nodes cwd state log] in Hw.
  rewrite lookup_insert_eq in Hw. injection Hw as <-.
  exists w1, k, wr. cbn [fs nodes cwd state log].
  rewrite insert_insert_eq. by repeat split.
Qed.



(** ** A call on a path whose directories can be had *)






(** ** Writing a second time *)




(** ** [write_file] into a directory that may not exist yet *)


(** ** Writing twice *)

(** * Further properties of the tools *)

(** ** [append_to_state]: errors, log and sequences of calls *)

(** X1. When the field holds a value that is not a list (a string, a
    number, [None], a dictionary), [append_to_state] raises [TypeError] and
    leaves the world as it was: the state, the files and the log. *)
Theorem append_to_state_type_error (w : World) (f r : string) (v : pyval) :
  state w !! f = Some v →
  (∀ l, v ≠ PList l) →
  append_to_state f r w = (Raise TypeError, w).
Proof.
  intros Hf Hv. rewrite append_to_state_run, Hf. cbn.
  destruct v; try reflexivity. by destruct (Hv l).
Qed.

Lemma append_to_state_type_error_witness :
  append_to_state "PROMPT" "Napoleon"
    (mkWorld {[ "PROMPT" := PStr "Caesar" ]} (mkFS ∅ []) []) =
  (Raise TypeError, mkWorld {[ "PROMPT" := PStr "Caesar" ]} (mkFS ∅ []) []).
Proof.
  apply (append_to_state_type_error
           (mkWorld {[ "PROMPT" := PStr "Caesar" ]} (mkFS ∅ []) [])
           "PROMPT" "Napoleon" (PStr "Caesar")).
  - reflexivity.
  - discriminate.
Defined.

(** X2. [append_to_state] returns its success status exactly when the field
    is unset or holds a list, and raises [TypeError] otherwise.  A call that
    returns has logged one line, ["[Added to <field>] <response>"], after
    the lines that were there, and has added the field to the keys of the
    state, removing none. *)
Theorem append_to_state_outcome (w : World) (f r : string) :
  (fst (append_to_state f r w) = Ret success ↔
     state w !! f = None ∨ ∃ l, state w !! f = Some (PList l)) ∧
  (fst (append_to_state f r w) = Ret success ∨
   fst (append_to_state f r w) = Raise TypeError) ∧
  (fst (append_to_state f r w) = Ret success →
     log (snd (append_to_state f r w)) =
       log w ++ ["[Added to " +:+ f +:+ "] " +:+ r] ∧
     dom (state (snd (append_to_state f r w))) = {[ f ]} ∪ dom (state w)).
Proof.
  rewrite append_to_state_run.
  destruct (state w !! f) as [v |] eqn:Hf; cbn.
  - destruct v; cbn; (split; [| split]); try (by right); try discriminate;
      try (split; [discriminate | intros [H | [l' H]]; discriminate]).
    + split; [intros _; right; by eexists | done].
    + by left.
    + intros _. split; [reflexivity | apply dom_insert_L].
  - split; [| split].
    + split; [intros _; by left | done].
    + by left.
    + intros _. split; [reflexivity | apply dom_insert_L].
Qed.

(** The first call of a sequence. *)
Lemma append_all_step (f r : string) (rs : list string) (w : World) :
  append_all f (r :: rs) w =
    match append_to_state f r w with
    | (Ret _, w') => append_all f rs w'
    | (Raise e, w') => (Raise e, w')
    end.
Proof. reflexivity. Qed.

(** X3. Calling [append_to_state] on one field for each response of a list,
    in order, on a field that is unset or holds a list [xs]: every call
    returns, the field ends with [xs] followed by the responses in the order
    of the calls, the other keys and the files are as before, and the log
    has one line for each call, in order. *)
Theorem append_all_appends (rs : list string) (w : World) (f : string)
  (xs : list pyval) :
  default (PList []) (state w !! f) = PList xs →
  ∃ w',
    append_all f rs w = (Ret tt, w') ∧
    default (PList []) (state w' !! f) = PList (xs ++ (PStr <$> rs)) ∧
    (∀ g, g ≠ f → state w' !! g = state w !! g) ∧
    fs w' = fs w ∧
    log w' = log w ++ ((λ r, "[Added to " +:+ f +:+ "] " +:+ r) <$> rs).
Proof.
  revert w xs. induction rs as [| r rs IH]; intros w xs Hxs.
  - exists w. cbn. rewrite !app_nil_r. by repeat split.
  - rewrite append_all_step, append_to_state_run, Hxs. cbn.
    destruct (IH (mkWorld (<[f := PList (xs ++ [PStr r])]> (state w)) (fs w)
                    (log w ++ ["[Added to " +:+ f +:+ "] " +:+ r]))
                 (xs ++ [PStr r])) as (w' & Hrun & Hf & Hother & Hfs & Hlog).
    { cbn. by rewrite lookup_insert_eq. }
    exists w'. split; [exact Hrun |]. cbn in *. repeat split.
    + by rewrite Hf, <- app_assoc.
    + intros g Hg. rewrite (Hother g Hg). apply lookup_insert_ne. congruence.
    + exact Hfs.
    + by rewrite Hlog, <- app_assoc.
Qed.

Lemma append_all_appends_witness :
  ∃ w',
    append_all "pos_data" ["b"; "a"; "b"] prompt_world = (Ret tt, w') ∧
    default (PList []) (state w' !! "pos_data") =
      PList ([] ++ (PStr <$> ["b"; "a"; "b"])) ∧
    (∀ g, g ≠ "pos_data" → state w' !! g = state prompt_world !! g) ∧
    fs w' = fs prompt_world ∧
    log w' = log prompt_world ++
      ((λ r, "[Added to " +:+ "pos_data" +:+ "] " +:+ r) <$> ["b"; "a"; "b"]).
Proof.
  apply (append_all_appends ["b"; "a"; "b"] prompt_world "pos_data" []).
  reflexivity.
Defined.

(** X4. Calls of [append_to_state] on two different fields do not
    interfere: the outcome of each call is the same whether the other call
    came before it or not, and the state and the files after both calls are
    the same in either order.  (The admirer and the critic, which run in
    parallel, write to [pos_data] and to [neg_data].) *)
Theorem append_to_state_commutes (w : World) (f1 r1 f2 r2 : string) :
  f1 ≠ f2 →
  fst (append_to_state f2 r2 (run_call (CallAppend f1 r1) w)) =
    fst (append_to_state f2 r2 w) ∧
  fst (append_to_state f1 r1 (run_call (CallAppend f2 r2) w)) =
    fst (append_to_state f1 r1 w) ∧
  state (run_call (CallAppend f2 r2) (run_call (CallAppend f1 r1) w)) =
    state (run_call (CallAppend f1 r1) (run_call (CallAppend f2 r2) w)) ∧
  fs (run_call (CallAppend f2 r2) (run_call (CallAppend f1 r1) w)) =
    fs (run_call (CallAppend f1 r1) (run_call (CallAppend f2 r2) w)).
Proof.
  intros Hne. cbn [run_call]. rewrite !append_to_state_run.
  destruct (py_add_list (default (PList []) (state w !! f1)) [PStr r1])
    as [e1 | v1] eqn:H1;
  destruct (py_add_list (default (PList []) (state w !! f2)) [PStr r2])
    as [e2 | v2] eqn:H2; cbn;
  rewrite ?append_to_state_run; cbn;
  rewrite ?lookup_insert_ne by congruence; rewrite ?H1, ?H2; cbn;
  repeat split; try reflexivity.
  apply insert_insert_ne. congruence.
Qed.

(** ** The state of a session that starts empty *)

Lemma run_call_all_str_lists (c : tool_call) (w : World) :
  all_str_lists (state w) → all_str_lists (state (run_call c w)).
Proof.
  intros Hall. destruct c as [f r | d fn t]; cbn [run_call].
  - rewrite append_to_state_run.
    destruct (state w !! f) as [v |] eqn:Hf; cbn.
    + destruct (Hall f v Hf) as (l & -> & Hl). cbn.
      intros k v' Hk. destruct (decide (k = f)) as [-> | Hne].
      * rewrite lookup_insert_eq in Hk. injection Hk as <-.
        exists (l ++ [r]). split; [by rewrite fmap_app | by destruct l].
      * rewrite lookup_insert_ne in Hk by congruence. by apply (Hall k).
    + intros k v' Hk. destruct (decide (k = f)) as [-> | Hne].
      * rewrite lookup_insert_eq in Hk. injection Hk as <-. by exists [r].
      * rewrite lookup_insert_ne in Hk by congruence. by apply (Hall k).
  - by rewrite write_file_state.
Qed.

(** X5. In every state that a session started empty reaches through calls
    of the tools, every key that is set, [PROMPT] and [CRITICAL_FEEDBACK]
    among them, holds a non-empty list of strings; so in such a state a
    call of [append_to_state] never raises and returns its success status,
    whatever the field and the response. *)
Theorem session_append_never_fails (f0 : FS) (w : World) :
  rtc session_step (new_session f0) w →
  all_str_lists (state w) ∧
  ∀ f r, fst (append_to_state f r w) = Ret success.
Proof.
  intros Hreach.
  assert (Hall : all_str_lists (state w)).
  { revert w Hreach. apply rtc_ind_r.
    - intros k v Hk. cbn in Hk. by rewrite lookup_empty in Hk.
    - intros y z _ [c] Hy. by apply run_call_all_str_lists. }
  split; [exact Hall |]. intros f r. rewrite append_to_state_run.
  destruct (state w !! f) as [v |] eqn:Hf; cbn; [| reflexivity].
  by destruct (Hall f v Hf) as (l & -> & _).
Qed.

(** ** [write_file]: state, log and target path *)

Lemma write_file_raise_log (d fn c : string) (w w' : World) (e : exn) :
  write_file d fn c w = (Raise e, w') → log w' = log w.
Proof.
  intros H. apply write_file_raises_iff in H.
  by apply step_raises_log in H as [_ H].
Qed.

Lemma write_file_ret_log (d fn c : string) (w w' : World) (v : list (string * string)) :
  write_file d fn c w = (Ret v, w') →
  log w' = log w ++ ["File written to " +:+ path_join d fn].
Proof.
  intros H. apply write_file_ret in H as (_ & w1 & h & w2 & w3 & Hm & Ho & Hw & ->).
  cbn [log]. f_equal. unfold os_makedirs in Hm.
  pose proof (fs_only_makedirs_rec (S (recursion_room host))
                (dirname (path_join d fn)) w) as [_ H1].
  rewrite Hm in H1.
  pose proof (fs_only_open_w (path_join d fn) w1) as [_ H2]. rewrite Ho in H2.
  pose proof (fs_only_file_write h c w2) as [_ H3]. rewrite Hw in H3.
  cbn in *. congruence.
Qed.

(** X6. [write_file] never touches the session state, whatever its outcome.
    A call that returns returns the success status and has logged one line,
    ["File written to <target path>"], after the lines that were there; a
    call that raises has logged nothing. *)
Theorem write_file_state_and_log (d fn c : string) (w : World) :
  state (snd (write_file d fn c w)) = state w ∧
  (∀ v, fst (write_file d fn c w) = Ret v →
     v = success ∧
     log (snd (write_file d fn c w)) =
       log w ++ ["File written to " +:+ path_join d fn]) ∧
  (∀ e, fst (write_file d fn c w) = Raise e →
     log (snd (write_file d fn c w)) = log w).
Proof.
  split; [apply write_file_state |].
  destruct (write_file d fn c w) as [o w'] eqn:Hcall. cbn [fst snd].
  split.
  - intros v ->. split.
    + by apply write_file_ret in Hcall as [-> _].
    + by eapply write_file_ret_log.
  - intros e ->. by eapply write_file_raise_log.
Qed.

(** X7. When the file name starts with a separator, the target path is the
    file name and the directory plays no part: the call is the same call
    for every directory.  The directory does not confine where the file
    goes. *)
Theorem write_file_absolute_filename (d d' fn c : string) (w : World) :
  starts_with_sep fn = true →
  path_join d fn = fn ∧
  write_file d fn c w = write_file d' fn c w.
Proof.
  intros H.
  assert (Hj : ∀ a, path_join a fn = fn).
  { intros a. unfold path_join. by rewrite H. }
  split; [apply Hj |]. unfold write_file. by rewrite !Hj.
Qed.

(** X8. For a directory that is not empty and does not end with a
    separator, and a file name without separator, splitting the joined
    path gives back the directory and the file name; so the directory that
    [write_file] creates is the directory it was given. *)
Theorem path_split_join (d fn : string) :
  d ≠ "" → ends_with_sep d = false → has_sep fn = false →
  path_split (path_join d fn) = (d, fn) ∧
  dirname (path_join d fn) = d.
Proof.
  intros Hd He Hfn. rewrite (path_join_plain d fn Hfn Hd He).
  unfold dirname. rewrite (path_split_app d fn Hd He Hfn). by split.
Qed.

Lemma path_split_join_witness :
  path_split (path_join "out/./verdicts" "napoleon.txt") =
    ("out/./verdicts", "napoleon.txt") ∧
  dirname (path_join "out/./verdicts" "napoleon.txt") = "out/./verdicts".
Proof.
  apply (path_split_join "out/./verdicts" "napoleon.txt");
    [discriminate | reflexivity | reflexivity].
Defined.


(** ** [write_file]: what happens to the other files *)












(** ** [write_file]: a target that cannot be written *)


(** ** [write_file]: a content that cannot be encoded *)


(** ** [write_file] on a target path that ends with a separator *)





(** ** Writing a second time: what changes *)


(** ** [write_file]: the errors a caller can see *)

Lemma walk_parent_error (f : FS) (p : string) (cs : list string) (e : exn) :
  walk_parent f p cs = inl e → is_OSError e = true.
Proof. apply walk_dir_error. Qed.

Lemma sys_mkdir_error (f : FS) (p : string) (e : exn) :
  sys_mkdir f p = inl e → is_OSError e = true.
Proof.
  unfold sys_mkdir. destruct (String.eqb p ""); [by intros [= <-] |].
  destruct (path_too_long p); [by intros [= <-] |].
  destruct (strip_trailing_empty (path_components p)) as [| c0 cs0];
    [by intros [= <-] |].
  destruct (walk_parent f p (c0 :: cs0)) as [e' | [k wr]] eqn:Hw.
  - intros [= <-]. by apply walk_parent_error in Hw.
  - destruct (is_dot _); [by intros [= <-] |].
    destruct (name_too_long _); [by intros [= <-] |].
    destruct (nodes f !! _); [by intros [= <-] |].
    destruct wr; [done | by intros [= <-]].
Qed.

Lemma sys_open_trunc_error (f : FS) (p : string) (e : exn) :
  sys_open_trunc f p = inl e → is_OSError e = true.
Proof.
  unfold sys_open_trunc. destruct (String.eqb p ""); [by intros [= <-] |].
  destruct (path_too_long p); [by intros [= <-] |].
  destruct (strip_trailing_empty (path_components p)) as [| c0 cs0];
    [by intros [= <-] |].
  destruct (walk_parent f p (c0 :: cs0)) as [e' | [k wr]] eqn:Hw.
  - intros [= <-]. by apply walk_parent_error in Hw.
  - destruct (_ || _); [by intros [= <-] |].
    destruct (name_too_long _); [by intros [= <-] |].
    destruct (nodes f !! _) as [[wd | wf t] |]; [by intros [= <-] | |].
    + destruct wf; [done | by intros [= <-]].
    + destruct wr; [done | by intros [= <-]].
Qed.

(** The errors of a path argument. *)
Lemma path_error_some (p : string) (e : exn) :
  path_error p = Some e →
  (e = UnicodeEncodeError ∧ fs_encodable p = false) ∨
  (e = ValueError ∧ has_nul p = true).
Proof.
  unfold path_error. destruct (fs_encodable p); cbn.
  - destruct (has_nul p); [| done]. intros [= <-]. by right.
  - intros [= <-]. by left.
Qed.

Lemma has_nul_prefix (a b : string) : has_nul a = true → has_nul (a +:+ b) = true.
Proof. intros H. unfold has_nul in *. by rewrite has_char_app, H. Qed.

Lemma fs_encodable_prefix (a b : string) :
  fs_encodable a = false → fs_encodable (a +:+ b) = false.
Proof. intros H. unfold fs_encodable in *. by rewrite all_chars_app, H. Qed.

(** The last step of [makedirs]: [mkdir], and [isdir] when it fails. *)
Lemma mkdir_exist_ok_errors (n : nat) (name : string) (w w' : World) (e : exn) :
  try_except (os_mkdir name) is_OSError
    (λ e, isd ← os_path_isdir name;
          if negb isd then raise e else mret tt) w = (Raise e, w') →
  makedirs_error n name e.
Proof.
  unfold try_except, makedirs_error. rewrite os_mkdir_run.
  destruct (path_error name) as [e0 |] eqn:Hpe.
  - apply path_error_some in Hpe as [[-> Hx] | [-> Hx]]; cbn; intros [= <- _]; tauto.
  - destruct (sys_mkdir (fs w) name) as [e1 | f'] eqn:Hm; [| done].
    rewrite (sys_mkdir_error _ _ _ Hm), bind_run, os_path_isdir_run.
    destruct (path_isdir (fs w) name); cbn; [done |].
    intros [= <- _]. left. by apply sys_mkdir_error in Hm.
Qed.

(** [os.makedirs] raises an [OSError]; or [ValueError] for a name with a
    NUL character; or [UnicodeEncodeError] for a name that cannot be
    encoded; or [RecursionError] when the names are more than the calls
    that can be nested. *)
Lemma makedirs_rec_errors (n : nat) (name : string) (w w' : World) (e : exn) :
  makedirs_rec n name w = (Raise e, w') → makedirs_error n name e.
Proof.
  revert name w w' e. induction n as [| n IH]; intros name w w' e.
  { cbn. intros [= <- _]. unfold makedirs_error. right. right. right.
    split; [done | lia]. }
  cbn [makedirs_rec]. unfold makedirs_body.
  pose proof (makedirs_split_names name) as (Hn & _ & [r Hr]). cbn zeta in Hn, Hr.
  set (ht := if String.eqb (snd (path_split name)) ""
             then path_split (fst (path_split name)) else path_split name) in *.
  assert (Hlast : ∀ w0, try_except (os_mkdir name) is_OSError
            (λ e, isd ← os_path_isdir name;
                  if negb isd then raise e else mret tt) w0 = (Raise e, w') →
            makedirs_error (S n) name e).
  { intros w0. apply mkdir_exist_ok_errors. }
  rewrite bind_run.
  destruct (String.eqb_spec (fst ht) "") as [| Hh]; cbn [negb andb]; [apply Hlast |].
  destruct (String.eqb_spec (snd ht) "") as [| Ht]; cbn [negb andb]; [apply Hlast |].
  rewrite bind_run, os_path_exists_run.
  destruct (path_exists (fs w) (fst ht)); cbn [negb]; [apply Hlast |].
  rewrite bind_run. unfold try_except at 1.
  destruct (makedirs_rec n (fst ht) w) as [[[] | e1] w1] eqn:Hin.
  - cbn. destruct (String.eqb (snd ht) "."); [done | apply Hlast].
  - destruct (exn_eqb e1 FileExistsError) eqn:He1.
    + cbn. destruct (String.eqb (snd ht) "."); [done | apply Hlast].
    + intros [= <- _]. unfold makedirs_error.
      destruct (IH _ _ _ _ Hin) as [Ho | [[Hv Hx] | [[Hv Hx] | [Hv Hx]]]].
      * by left.
      * right. left. split; [done |]. rewrite Hr. by apply has_nul_prefix.
      * right. right. left. split; [done |]. rewrite Hr. by apply fs_encodable_prefix.
      * right. right. right. split; [done |].
        rewrite Hn, length_app. cbn [length]. lia.
Qed.

(** X13. The errors of [write_file].  A call that raises raises an
    [OSError] (the class itself or one of [FileNotFoundError],
    [FileExistsError], [NotADirectoryError], [IsADirectoryError],
    [PermissionError]); or [ValueError], and then the target path holds a
    NUL character; or [UnicodeEncodeError], and then the target path or the
    content cannot be encoded; or [RecursionError], and then the directory
    part of the target path has more names than [os.makedirs] can nest
    calls.  It never raises [TypeError].  A call that returns had a target
    path and a content that can be encoded and a target path without
    NUL. *)
Theorem write_file_errors (d fn c : string) (w : World) :
  match write_file d fn c w with
  | (Raise e, _) =>
      is_OSError e = true ∨
      (e = ValueError ∧ has_nul (path_join d fn) = true) ∨
      (e = UnicodeEncodeError ∧
       (fs_encodable (path_join d fn) = false ∨ text_encodable c = false)) ∨
      (e = RecursionError ∧
       S (recursion_room host) ≤ length (names (dirname (path_join d fn))))
  | (Ret _, _) =>
      fs_encodable (path_join d fn) = true ∧ has_nul (path_join d fn) = false ∧
      text_encodable c = true
  end.
Proof.
  destruct (write_file d fn c w) as [[v | e] w'] eqn:H.
  - apply write_file_post in H as (w1 & k & wr & _ & _ & Hpe & Hc & _).
    apply path_error_none in Hpe as [? ?]. by repeat split.
  - apply write_file_raises_iff in H.
    destruct (dirname_prefix (path_join d fn)) as [r Hr].
    destruct H as [H | (w1 & H1 & [H | (h & w2 & H2 & H3)])].
    + apply makedirs_rec_errors in H as [Ho | [[Hv Hx] | [[Hv Hx] | [Hv Hx]]]].
      * by left.
      * right. left. split; [done |]. rewrite Hr. by apply has_nul_prefix.
      * right. right. left. split; [done |]. left. rewrite Hr.
        by apply fs_encodable_prefix.
      * right. right. right. by split.
    + rewrite open_w_run in H. destruct (path_error (path_join d fn)) as [e0 |] eqn:Hpe.
      * injection H as <- _.
        apply path_error_some in Hpe as [[-> Hx] | [-> Hx]]; [| tauto].
        right. right. left. tauto.
      * destruct (sys_open_trunc (fs w1) (path_join d fn)) as [e1 | r'] eqn:Ho; [| done].
        injection H as <- _. left. by apply sys_open_trunc_error in Ho.
    + rewrite open_w_run in H2. destruct (path_error (path_join d fn)); [done |].
      destruct (sys_open_trunc (fs w1) (path_join d fn)) as [e1 | [f' h']] eqn:Ho;
        [done |].
      injection H2 as <- <-.
      apply sys_open_trunc_inv in Ho as (k & wr & _ & _ & _ & _ & _ & _ & _ & _ & ->).
      rewrite file_write_run in H3. destruct (text_encodable c) eqn:Hc.
      * unfold sys_write, set_fs, with_nodes in H3.
        cbn [fs nodes fst] in H3. by rewrite lookup_insert_eq in H3.
      * injection H3 as <- _. right. right. left. tauto.
Qed.

(** ** [write_file] beside [append_to_state] *)

Lemma fs_determined_ret {A} (a : A) : fs_determined (mret a).
Proof. by intros w1 w2 H. Qed.

Lemma fs_determined_raise {A} (e : exn) : fs_determined (@raise A e).
Proof. by intros w1 w2 H. Qed.

Lemma fs_determined_bind {A B} (m : Py A) (k : A → Py B) :
  fs_determined m → (∀ a, fs_determined (k a)) → fs_determined (m ≫= k).
Proof.
  intros Hm Hk w1 w2 H. rewrite !bind_run. destruct (Hm w1 w2 H) as [Ho Hf].
  destruct (m w1) as [[a1 | e1] w1'], (m w2) as [[a2 | e2] w2']; cbn in Ho, Hf;
    try discriminate.
  - injection Ho as <-. by apply Hk.
  - by injection Ho as <-.
Qed.

Lemma fs_determined_try {A} (m : Py A) (c : exn → bool) (h : exn → Py A) :
  fs_determined m → (∀ e, fs_determined (h e)) → fs_determined (try_except m c h).
Proof.
  intros Hm Hh w1 w2 H. unfold try_except. destruct (Hm w1 w2 H) as [Ho Hf].
  destruct (m w1) as [[a1 | e1] w1'], (m w2) as [[a2 | e2] w2']; cbn in Ho, Hf;
    try discriminate.
  - by injection Ho as <-.
  - injection Ho as <-. destruct (c e1); [by apply Hh | done].
Qed.

Lemma fs_determined_lift {A} (r : exn + A) : fs_determined (lift_result r).
Proof. by destruct r; intros w1 w2 H. Qed.

Lemma fs_determined_get_fs : fs_determined get_fs.
Proof. intros w1 w2 H. cbn. by rewrite H. Qed.

Lemma fs_determined_put_fs (f : FS) : fs_determined (put_fs f).
Proof. by intros w1 w2 H. Qed.

Lemma fs_determined_logging_info (line : string) : fs_determined (logging_info line).
Proof. by intros w1 w2 H. Qed.

Create HintDb fs_determined.
#[local] Hint Resolve fs_determined_ret fs_determined_raise fs_determined_lift
  fs_determined_get_fs fs_determined_put_fs fs_determined_logging_info
  : fs_determined.
#[local] Hint Extern 2 (fs_determined (_ ≫= _)) =>
  apply fs_determined_bind; [| intros ?] : fs_determined.
#[local] Hint Extern 2 (fs_determined (try_except _ _ _)) =>
  apply fs_determined_try; [| intros ?] : fs_determined.
#[local] Hint Extern 3 (fs_determined (if ?b then _ else _)) =>
  destruct b : fs_determined.

Lemma fs_determined_os_stat (p : string) : fs_determined (os_stat p).
Proof. unfold os_stat. destruct (path_error p); auto with fs_determined. Qed.

Lemma fs_determined_os_mkdir (p : string) : fs_determined (os_mkdir p).
Proof. unfold os_mkdir. destruct (path_error p); auto 6 with fs_determined. Qed.

#[local] Hint Resolve fs_determined_os_stat fs_determined_os_mkdir : fs_determined.

Lemma fs_determined_exists (p : string) : fs_determined (os_path_exists p).
Proof. unfold os_path_exists. auto with fs_determined. Qed.

Lemma fs_determined_isdir (p : string) : fs_determined (os_path_isdir p).
Proof. unfold os_path_isdir. auto with fs_determined. Qed.

#[local] Hint Resolve fs_determined_exists fs_determined_isdir : fs_determined.

Lemma fs_determined_makedirs_rec (n : nat) (name : string) :
  fs_determined (makedirs_rec n name).
Proof.
  revert name. induction n as [| n IH]; intros name; cbn [makedirs_rec].
  - auto with fs_determined.
  - unfold makedirs_body. auto 10 with fs_determined.
Qed.

(** The session state and the log have no part in what [write_file] returns
    or raises, nor in what it does to the files. *)
Lemma write_file_fs_determined (d fn c : string) : fs_determined (write_file d fn c).
Proof.
  unfold write_file, os_makedirs, open_w, file_write.
  pose proof fs_determined_makedirs_rec.
  destruct (path_error (path_join d fn)); auto 12 with fs_determined.
Qed.

(** X14. [write_file] and [append_to_state] do not interfere.  Each of them
    returns or raises the same whether the other has run before it or not,
    and the two calls leave the same session state and the same files in
    either order (the log alone records the order). *)
Theorem write_file_append_independent (d fn c f r : string) (w : World) :
  fst (write_file d fn c (run_call (CallAppend f r) w)) = fst (write_file d fn c w) ∧
  fst (append_to_state f r (run_call (CallWrite d fn c) w)) =
    fst (append_to_state f r w) ∧
  state (run_call (CallWrite d fn c) (run_call (CallAppend f r) w)) =
    state (run_call (CallAppend f r) (run_call (CallWrite d fn c) w)) ∧
  fs (run_call (CallWrite d fn c) (run_call (CallAppend f r) w)) =
    fs (run_call (CallAppend f r) (run_call (CallWrite d fn c) w)).
Proof.
  cbn [run_call].
  assert (Hfs : fs (snd (append_to_state f r w)) = fs w).
  { rewrite append_to_state_run. by destruct (py_add_list _ _). }
  destruct (write_file_fs_determined d fn c _ _ Hfs) as [Ho Hf].
  pose proof (write_file_state d fn c w) as Hs.
  pose proof (write_file_state d fn c (snd (append_to_state f r w))) as Hs'.
  split; [exact Ho |]. rewrite Hs', Hf.
  rewrite (append_to_state_run (snd (write_file d fn c w))),
    (append_to_state_run w), Hs.
  by destruct (py_add_list _ _).
Qed.

End Host.

(** * The properties on a Linux host

    The statements above hold on every host.  Here they are taken at the
    host [linux], on small file systems. *)

(** ** The typing of the state keys *)

(** The typing in the words of the specification is not kept: in a new
    session the greeter's store leaves a sequence in [PROMPT]. *)
Lemma spec_typing_broken_by_greeter :
  spec_typing (state (new_session (mkFS ∅ []))) ∧
  state (run_call linux (greeter_store "Napoleon") (new_session (mkFS ∅ []))) !! "PROMPT"
    = Some (PList [PStr "Napoleon"]) ∧
  ¬ spec_typing (state (run_call linux (greeter_store "Napoleon")
                          (new_session (mkFS ∅ [])))).
Proof.
  split; [| split].
  - repeat split.
  - reflexivity.
  - intros [H _]. discriminate H.
Qed.

Lemma session_step_keeps_sequences_witness :
  seq_typing (state (run_call linux (greeter_store "Napoleon")
                       (new_session (mkFS ∅ [])))) ∧
  append_only (state (new_session (mkFS ∅ [])))
    (state (run_call linux (greeter_store "Napoleon") (new_session (mkFS ∅ [])))).
Proof.
  apply (session_step_keeps_sequences linux (new_session (mkFS ∅ []))).
  - repeat split.
  - apply (step_call linux _ (greeter_store "Napoleon")).
Defined.

(** ** [append_to_state] *)

Lemma append_to_state_commutes_witness :
  fst (append_to_state "neg_data" "lost"
         (run_call linux (CallAppend "pos_data" "won") prompt_world)) =
    fst (append_to_state "neg_data" "lost" prompt_world) ∧
  fst (append_to_state "pos_data" "won"
         (run_call linux (CallAppend "neg_data" "lost") prompt_world)) =
    fst (append_to_state "pos_data" "won" prompt_world) ∧
  state (run_call linux (CallAppend "neg_data" "lost")
           (run_call linux (CallAppend "pos_data" "won") prompt_world)) =
    state (run_call linux (CallAppend "pos_data" "won")
             (run_call linux (CallAppend "neg_data" "lost") prompt_world)) ∧
  fs (run_call linux (CallAppend "neg_data" "lost")
        (run_call linux (CallAppend "pos_data" "won") prompt_world)) =
    fs (run_call linux (CallAppend "pos_data" "won")
          (run_call linux (CallAppend "neg_data" "lost") prompt_world)).
Proof.
  apply (append_to_state_commutes linux prompt_world "pos_data" "won" "neg_data" "lost").
  discriminate.
Defined.

Lemma session_append_never_fails_witness :
  all_str_lists
    (state (run_call linux (CallAppend "CRITICAL_FEEDBACK" "more on the retreat")
              (new_session (home_fs true)))) ∧
  ∀ f r,
    fst (append_to_state f r
           (run_call linux (CallAppend "CRITICAL_FEEDBACK" "more on the retreat")
              (new_session (home_fs true)))) = Ret success.
Proof.
  apply (session_append_never_fails linux (home_fs true)).
  apply rtc_once. apply step_call.
Defined.

(** ** [write_file]: errors *)

Lemma write_file_propagates_witness :
  write_file linux "verdicts" "a.txt" "x" (new_session (home_fs false)) =
    (Raise PermissionError, new_session (home_fs false)) ∧
  fst (write_file linux "verdicts" "a.txt" "x" (new_session (home_fs false)))
    ≠ Ret success ∧
  log (new_session (home_fs false)) = log (new_session (home_fs false)).
Proof.
  apply (write_file_propagates linux "verdicts" "a.txt" "x" (new_session (home_fs false))
           PermissionError (new_session (home_fs false))).
  left. vm_compute. reflexivity.
Defined.

Lemma write_file_empty_directory_witness :
  path_join "" "napoleon.txt" = "napoleon.txt" ∧
  dirname (path_join "" "napoleon.txt") = "" ∧
  write_file linux "" "napoleon.txt" "report" (new_session (home_fs true)) =
    (Raise FileNotFoundError, new_session (home_fs true)).
Proof.
  apply (write_file_empty_directory linux (new_session (home_fs true))
           "napoleon.txt" "report").
  reflexivity.
Defined.

Lemma write_file_absolute_filename_witness :
  path_join "verdicts" "/etc/motd" = "/etc/motd" ∧
  write_file linux "verdicts" "/etc/motd" "report" (new_session (home_fs true)) =
    write_file linux "elsewhere" "/etc/motd" "report" (new_session (home_fs true)).
Proof.
  apply (write_file_absolute_filename linux "verdicts" "elsewhere" "/etc/motd" "report"
           (new_session (home_fs true))).
  reflexivity.
Defined.

(** ** [write_file]: the directories and the file *)



(** ** Writing twice *)




(** ** [write_file]: targets that cannot be written *)



